(** * lec_compgeo: the TPFA flow solve and the permeability generator

    A shallow embedding of [lab/lab10/solve_problem.py] and
    [lab/lab99/solve_problem.py].

    Numbers.  The scripts compute with float64 arrays.  Here a float is an
    exact rational ([Qc]); rounding is not modelled.  Infinities and NaN
    are represented where the scripts can reach them, in the Kozeny-Carman
    map (see [xfloat]): there a result whose magnitude leaves the range of
    float64 becomes an infinity, and a zero denominator gives an infinity
    or NaN, as numpy does.

    Arrays are lists, Python dictionaries are [gmap string _], exceptions
    are the [Raise] branch of the [res] monad. *)

From Stdlib Require Import QArith Qcanon ZArith Lia Lqa List.
From stdpp Require Import gmap strings list.

Local Open Scope Qc_scope.

(** ** Python exceptions and the error monad *)

Inductive exn : Type :=
  | NameError (name : string)
  | KeyError (key : string)
  | IndexError
  | ValueError (msg : string)
  | TypeError (msg : string)
  | OverflowError (msg : string)
  | SingularMatrix.

Inductive res (A : Type) : Type :=
  | Ok (a : A)
  | Raise (e : exn).
Arguments Ok {A} a.
Arguments Raise {A} e.

Global Instance res_ret : MRet res := λ A a, Ok a.
Global Instance res_bind : MBind res := λ A B k m,
  match m with
  | Ok a => k a
  | Raise e => Raise e
  end.

Definition from_option {A} (e : exn) (o : option A) : res A :=
  match o with
  | Some a => Ok a
  | None => Raise e
  end.

Fixpoint res_mapM {A B} (f : A → res B) (l : list A) : res (list B) :=
  match l with
  | [] => Ok []
  | a :: l' => b ← f a; bs ← res_mapM f l'; Ok (b :: bs)
  end.

(** ** numpy on float arrays *)

Abbreviation float := Qc (only parsing).


Definition Qcabs (x : Qc) : Qc := if decide (x < 0) then - x else x.
Definition Qcmax (x y : Qc) : Qc := if decide (x < y) then y else x.
Definition Qcmin (x y : Qc) : Qc := if decide (y < x) then y else x.

(** [a[i]] on a one-dimensional array. *)
Definition getitem {A} (a : list A) (i : nat) : res A :=
  from_option IndexError (a !! i).

(** [a[idx]] with an integer index array. *)
Definition take_idx {A} (a : list A) (idx : list nat) : res (list A) :=
  res_mapM (getitem a) idx.

(** [a[r]] and [a[r, :]] on a two-dimensional array: row [r]. *)
Definition getrow (a : list (list float)) (r : nat) : res (list float) :=
  getitem a r.

(** [a[:, idx]] on a two-dimensional array: the listed columns of each row. *)
Definition take_cols (a : list (list float)) (idx : list nat)
    : res (list (list float)) :=
  res_mapM (λ row, take_idx row idx) a.

(** [a[mask]] with a boolean mask; numpy refuses a mask of another length. *)
Definition take_mask {A} (a : list A) (mask : list bool) : res (list A) :=
  if decide (length mask = length a)
  then Ok (fst <$> filter (λ xb, snd xb = true) (zip a mask))
  else Raise IndexError.

(** [a.nonzero()[0]]: the positions of the true entries, increasing. *)
Definition nonzero (a : list bool) : list nat :=
  filter (λ i, a !! i = Some true) (seq 0 (length a)).

(** [np.amax] and [np.amin]; both raise on an empty array. *)
Definition amax (a : list float) : res float :=
  match a with
  | [] => Raise (ValueError "zero-size array to reduction operation maximum which has no identity")
  | x :: a' => Ok (foldl Qcmax x a')
  end.

Definition amin (a : list float) : res float :=
  match a with
  | [] => Raise (ValueError "zero-size array to reduction operation minimum which has no identity")
  | x :: a' => Ok (foldl Qcmin x a')
  end.

(** [np.isclose(a, b)] with the default tolerances:
    [|a - b| <= atol + rtol * |b|], [rtol = 1e-05], [atol = 1e-08]. *)
Definition rtol : Qc := Q2Qc (1 # 100000).
Definition atol : Qc := Q2Qc (1 # 100000000).

Definition isclose (a b : float) : bool :=
  bool_decide (Qcabs (a - b) ≤ atol + rtol * Qcabs b).

(** The same on an array and a scalar. *)
Definition np_isclose (a : list float) (b : float) : list bool :=
  (λ y, isclose y b) <$> a.

(** [np.sum] *)
Definition np_sum (a : list float) : float := foldr Qcplus 0 a.

(** ** Dense matrices (rows of floats) *)

Definition matrix := list (list float).

Definition mk_matrix (nr nc : nat) (entry : nat → nat → float) : matrix :=
  (λ i, (λ j, entry i j) <$> seq 0 nc) <$> seq 0 nr.

Definition dot (u v : list float) : float :=
  np_sum (zip_with Qcmult u v).

(** [M @ v] *)
Definition mat_vec (M : matrix) (v : list float) : list float :=
  (λ row, dot row v) <$> M.

Definition vec_add (u v : list float) : list float := zip_with Qcplus u v.
Definition vec_opp (u : list float) : list float := Qcopp <$> u.

(** Entry [(i, j)] of a matrix, [0] outside of it. *)
Definition mat_get (M : matrix) (i j : nat) : float :=
  default 0 (M !! i ≫= (.!! j)).

Definition col (M : matrix) (j : nat) : list float :=
  (λ row, default 0 (row !! j)) <$> M.

(** [M1 @ M2], for [M2] with [nc] columns. *)
Definition mat_mul (M1 M2 : matrix) (nc : nat) : matrix :=
  (λ row, (λ j, dot row (col M2 j)) <$> seq 0 nc) <$> M1.

(** A scipy sparse matrix: its shape and its entries. *)
Record sparse : Type := Sparse {
  sp_rows : nat;
  sp_cols : nat;
  sp_dense : matrix
}.

Definition sp_make (nr nc : nat) (entry : nat → nat → float) : sparse :=
  Sparse nr nc (mk_matrix nr nc entry).

(** [M @ v]; scipy raises on a dimension mismatch. *)
Definition sp_matvec (M : sparse) (v : list float) : res (list float) :=
  if decide (length v = sp_cols M)
  then Ok (mat_vec (sp_dense M) v)
  else Raise (ValueError "dimension mismatch").

(** [u + v] on arrays of one shape. *)
Definition np_add (u v : list float) : res (list float) :=
  if decide (length u = length v)
  then Ok (vec_add u v)
  else Raise (ValueError "operands could not be broadcast together").

(** ** The grid ([pp.Grid]) *)

(** The attributes the scripts and the discretization read.  Coordinate
    arrays have one row per space direction and one column per node, face
    or cell; [cell_faces] has one row per face and one column per cell, with
    entry [1] or [-1] where the face belongs to the cell (the sign tells
    whether the face normal leaves the cell) and [0] elsewhere. *)
Record Grid : Type := {
  num_cells : nat;
  num_faces : nat;
  nodes : list (list float);
  face_centers : list (list float);
  cell_centers : list (list float);
  face_normals : list (list float);
  cell_faces : list (list Z);
  tags : gmap string (list bool)
}.

Definition sgn_float (z : Z) : float := Qc_of_Z z.

(** Component [r] of column [j] of a coordinate array. *)
Definition coord (a : list (list float)) (r j : nat) : float := mat_get a r j.

(** Orientation of face [f] with respect to cell [c]. *)
Definition cf_sign (sd : Grid) (f c : nat) : Z :=
  default 0%Z (cell_faces sd !! f ≫= (.!! c)).

(** ** The external flow library (PorePy), as far as the scripts use it *)

(** Modelled from the spec: [pp.SecondOrderTensor] is not in the
    repository.  "Build an isotropic second-order conductivity tensor by
    broadcasting conductivity to every cell": the tensor is given by its one
    diagonal value per cell. *)
Definition SecondOrderTensor (kxx : list float) : list float := kxx.

(** Modelled from the spec: [pp.BoundaryCondition] is not in the
    repository.  "A label (Dirichlet) and value per boundary face": the
    object records, per face of the grid, whether it carries a Dirichlet
    label.  One label per listed face is required. *)
Record BoundaryCondition : Type := { is_dir : list bool }.

Definition mark_dir (acc : res (list bool)) (fl : nat * string) : res (list bool) :=
  d ← acc;
  if decide (fl.2 = "dir")
  then (if decide (fl.1 < length d)%nat then Ok (<[fl.1 := true]> d) else Raise IndexError)
  else Raise (ValueError "Boundary should be Dirichlet").

(** An empty list of faces gives a condition without any Dirichlet face;
    the failure that section 4.1 of the spec names for a grid without
    boundary faces is then the solver's, on a matrix that is singular. *)
Definition make_BoundaryCondition (sd : Grid) (faces : list nat)
    (cond : list string) : res BoundaryCondition :=
  if decide (length faces = length cond)
  then d ← foldl mark_dir (Ok (replicate (num_faces sd) false)) (zip faces cond);
       Ok {| is_dir := d |}
  else Raise (ValueError "One BC per face").

Inductive param : Type :=
  | PTensor (k : list float)
  | PBc (bc : BoundaryCondition)
  | PValues (v : list float).

(** The data dictionary: [data[pp.PARAMETERS][key]] and
    [data[pp.DISCRETIZATION_MATRICES][key]]. *)
Record Data : Type := {
  parameters : gmap string (gmap string param);
  discretization_matrices : gmap string (gmap string sparse)
}.

(** Modelled from the spec: [pp.initialize_default_data] is not in the
    repository; it files the parameter dictionary under the keyword and
    opens an empty dictionary of discretization matrices for it. *)
Definition initialize_default_data (sd : Grid) (key : string)
    (ps : gmap string param) : Data :=
  {| parameters := {[ key := ps ]};
     discretization_matrices := {[ key := ∅ ]} |}.

(** Sum of [g i] for [i < n]. *)
Definition sum_n (n : nat) (g : nat → float) : float :=
  np_sum (g <$> seq 0 n).

(** Modelled from the spec: [pp.Tpfa] is not in the repository (section
    4.1, step 4).  The one-sided coefficient of face [f] seen from cell [c]
    is the cell conductivity times face area over the distance from the cell
    centre to the face centre.  With [n] the area-weighted face normal
    oriented out of the cell and [d] the vector from the cell centre to the
    face centre, area over distance is [(n . d) / (d . d)], which stays in
    the rationals. *)
Definition half_trans (sd : Grid) (k : list float) (f c : nat) : float :=
  let d r := coord (face_centers sd) r f - coord (cell_centers sd) r c in
  let n r := sgn_float (cf_sign sd f c) * coord (face_normals sd) r f in
  default 0 (k !! c) * sum_n 3 (λ r, n r * d r) / sum_n 3 (λ r, d r * d r).

(** The cells of face [f]. *)
Definition face_cells (sd : Grid) (f : nat) : list nat :=
  filter (λ c, cf_sign sd f c ≠ 0%Z) (seq 0 (num_cells sd)).

(** The face coefficient: the harmonic combination of the one-sided
    coefficients of its cells (the distance-weighted harmonic mean of the
    conductivities, over the distance between the centres); it is zero as
    soon as one side does not conduct. *)
Definition face_trans (sd : Grid) (k : list float) (f : nat) : float :=
  let hs := half_trans sd k f <$> face_cells sd f in
  if decide (0 ∈ hs) then 0 else 1 / np_sum ((λ h, 1 / h) <$> hs).

(** Orientation of a boundary face: the sign of its one cell. *)
Definition bnd_sign (sd : Grid) (f : nat) : float :=
  sum_n (num_cells sd) (λ c, sgn_float (cf_sign sd f c)).

(** The flux matrix: face flux from cell pressures, oriented along the face
    normal. *)
Definition tpfa_flux (sd : Grid) (k : list float) : sparse :=
  sp_make (num_faces sd) (num_cells sd)
    (λ f c, face_trans sd k f * sgn_float (cf_sign sd f c)).

(** The boundary flux matrix: on a Dirichlet face the prescribed value
    stands in for the missing neighbour pressure. *)
Definition tpfa_bound_flux (sd : Grid) (k : list float)
    (bc : BoundaryCondition) : sparse :=
  sp_make (num_faces sd) (num_faces sd)
    (λ f f', if decide (f = f' ∧ is_dir bc !! f = Some true)
             then - (face_trans sd k f * bnd_sign sd f) else 0).

Definition lookup_key {A} (m : gmap string A) (key : string) : res A :=
  from_option (KeyError key) (m !! key).

(** [tpfa.discretize(sd, data)]: reads the tensor and the boundary
    condition, stores ["flux"] and ["bound_flux"]. *)
Definition tpfa_discretize (key : string) (sd : Grid) (data : Data) : res Data :=
  ps ← lookup_key (parameters data) key;
  t ← lookup_key ps "second_order_tensor";
  b ← lookup_key ps "bc";
  md ← lookup_key (discretization_matrices data) key;
  match t, b with
  | PTensor k, PBc bc =>
      Ok {| parameters := parameters data;
            discretization_matrices :=
              <[ key := <[ "bound_flux" := tpfa_bound_flux sd k bc ]>
                          (<[ "flux" := tpfa_flux sd k ]> md) ]>
                (discretization_matrices data) |}
  | _, _ => Raise (ValueError "parameter of the wrong kind")
  end.

(** The divergence: the transpose of [cell_faces]. *)
Definition tpfa_div (sd : Grid) : sparse :=
  sp_make (num_cells sd) (num_faces sd) (λ c f, sgn_float (cf_sign sd f c)).

Definition sp_matmul (M1 M2 : sparse) : res sparse :=
  if decide (sp_cols M1 = sp_rows M2)
  then Ok (Sparse (sp_rows M1) (sp_cols M2)
             (mat_mul (sp_dense M1) (sp_dense M2) (sp_cols M2)))
  else Raise (ValueError "dimension mismatch").

(** [tpfa.assemble_matrix_rhs(sd, data)]: [A = div @ flux] and
    [b = - div @ bound_flux @ bc_values]. *)
Definition tpfa_assemble_matrix_rhs (key : string) (sd : Grid) (data : Data)
    : res (sparse * list float) :=
  ps ← lookup_key (parameters data) key;
  v ← lookup_key ps "bc_values";
  md ← lookup_key (discretization_matrices data) key;
  flux ← lookup_key md "flux";
  bound_flux ← lookup_key md "bound_flux";
  match v with
  | PValues bc_val =>
      A ← sp_matmul (tpfa_div sd) flux;
      g ← sp_matvec bound_flux bc_val;
      r ← sp_matvec (tpfa_div sd) g;
      Ok (A, vec_opp r)
  | _ => Raise (ValueError "parameter of the wrong kind")
  end.

(** ** The direct solver ([scipy.sparse.linalg.spsolve]) *)

(** One equation: the coefficients of the unknowns and the right-hand side. *)
Definition eqn : Type := list float * float.

(** The first equation with a non-zero leading coefficient, and the others. *)
Fixpoint find_pivot (sys : list eqn) : option (eqn * list eqn) :=
  match sys with
  | [] => None
  | e :: sys' =>
      if decide (hd 0 e.1 = 0)
      then '(p, rest) ← find_pivot sys'; Some (p, e :: rest)
      else Some (e, sys')
  end.

(** Remove the first unknown from [e] with the pivot equation [p]. *)
Definition eliminate (p e : eqn) : eqn :=
  let m := hd 0 e.1 / hd 0 p.1 in
  (zip_with (λ x y, x - m * y) (tail e.1) (tail p.1), e.2 - m * p.2).

Fixpoint solve_rec (n : nat) (sys : list eqn) : option (list float) :=
  match n with
  | O => Some []
  | S n' =>
      '(p, rest) ← find_pivot sys;
      xs ← solve_rec n' (eliminate p <$> rest);
      Some ((p.2 - dot (tail p.1) xs) / hd 0 p.1 :: xs)
  end.

(** Modelled from the spec: the solver is not in the repository (section
    4.1, step 5: "a direct sparse solver", "exact factorization", and the
    singular-matrix failure of the same section).  Elimination with row
    pivoting and back substitution, in exact arithmetic. *)
Definition spsolve (A : sparse) (b : list float) : res (list float) :=
  if decide (sp_rows A = sp_cols A ∧ length b = sp_rows A)
  then from_option SingularMatrix (solve_rec (sp_rows A) (zip (sp_dense A) b))
  else Raise (ValueError "matrix - rhs dimension mismatch").

(** ** The conductivity argument *)

(** [solve_problem] accepts one value for the whole medium or one value per
    cell. *)
Inductive conductivity : Type :=
  | Scalar (k : float)
  | PerCell (ks : list float).

(** [perm * np.ones(n)] with numpy's broadcasting of one-dimensional
    shapes. *)
Definition mul_ones (perm : conductivity) (n : nat) : res (list float) :=
  match perm with
  | Scalar k => Ok (replicate n (k * 1))
  | PerCell ks =>
      if decide (length ks = n) then Ok ((λ k, k * 1) <$> ks)
      else if decide (length ks = 1%nat) then Ok (replicate n (hd 0 ks * 1))
      else if decide (n = 1%nat) then Ok ((λ k, k * 1) <$> ks)
      else Raise (ValueError "operands could not be broadcast together")
  end.

(** ** The two scripts: what they share *)

(** What the boundary block of [solve_problem] leaves for the rest of the
    function: [b_faces], [out_flow], [labels], [bc_val] and [bc]. *)
Record BoundaryData : Type := {
  bd_faces : list nat;
  bd_out_flow : list bool;
  bd_labels : list string;
  bd_values : list float;
  bd_bc : BoundaryCondition
}.

(** From the parameter dictionary to the return statement; the same text in
    both scripts. *)
Definition flow_solve (key : string) (sd : Grid) (sot : list float)
    (bd : BoundaryData) : res (list float * float) :=
  let b_faces := bd_faces bd in
  let out_flow := bd_out_flow bd in
  let bc_val := bd_values bd in
  let bc := bd_bc bd in
  let parameters : gmap string param :=
    {[ "second_order_tensor" := PTensor sot; "bc" := PBc bc;
       "bc_values" := PValues bc_val ]} in
  let data := initialize_default_data sd key parameters in
  data ← tpfa_discretize key sd data;
  '(A_tpfa, b_tpfa) ← tpfa_assemble_matrix_rhs key sd data;
  cell_p_tpfa ← spsolve A_tpfa b_tpfa;
  mat_discr ← lookup_key (discretization_matrices data) key;
  flux ← lookup_key mat_discr "flux";
  fp ← sp_matvec flux cell_p_tpfa;
  bound_flux ← lookup_key mat_discr "bound_flux";
  bg ← sp_matvec bound_flux bc_val;
  q ← np_add fp bg;
  idx ← take_mask b_faces out_flow;
  qs ← take_idx q idx;
  Ok (cell_p_tpfa, np_sum qs).

(** ** lab/lab99/solve_problem.py *)

Module Lab99.

(** Lines 28 to 39: the boundary faces, the outflow mask, the labels, the
    boundary values and the boundary condition object. *)
Definition boundary_conditions (sd : Grid) : res BoundaryData :=
  tag ← lookup_key (tags sd) "domain_boundary_faces";
  let b_faces := nonzero tag in
  b_face_centers ← take_cols (face_centers sd) b_faces;
  bfc1 ← getrow b_face_centers 1;
  nodes1 ← getrow (nodes sd) 1;
  top ← amax nodes1;
  let out_flow := np_isclose bfc1 top in
  let labels := replicate (length b_faces) "dir" in
  fc1 ← getrow (face_centers sd) 1;
  let bc_val := (λ y, 1 - y) <$> fc1 in
  bc ← make_BoundaryCondition sd b_faces labels;
  Ok {| bd_faces := b_faces; bd_out_flow := out_flow; bd_labels := labels;
        bd_values := bc_val; bd_bc := bc |}.

Definition solve_problem (sd : Grid) (perm_mu : conductivity)
    : res (list float * float) :=
  let key := "flow" in
  kxx ← mul_ones perm_mu (num_cells sd);
  let sot := SecondOrderTensor kxx in
  bd ← boundary_conditions sd;
  flow_solve key sd sot bd.

End Lab99.

(** ** The Cartesian grid of the unit square *)

(** Modelled from the spec: [pp.CartGrid] and [compute_geometry] are not in
    the repository.  [CartGrid n] is the grid [pp.CartGrid([n, n], [1, 1])]
    of section 3: [n] by [n] square cells of side [1/n].  Cells and nodes
    are numbered row by row from the bottom left; the faces normal to the
    first axis come first, then the faces normal to the second axis, each
    family row by row; normals point in the positive axis direction. *)
Definition Qc_of_nat (i : nat) : Qc := Qc_of_Z (Z.of_nat i).

Section cart.
Variable n : nat.

Definition cart_h : float := 1 / Qc_of_nat n.
Definition half : float := Q2Qc (1 # 2).
Definition nxf : nat := ((n + 1) * n)%nat.

Definition cart_nodes : list (list float) :=
  [ (λ v, Qc_of_nat (v mod (n + 1)) * cart_h) <$> seq 0 ((n + 1) * (n + 1));
    (λ v, Qc_of_nat (v / (n + 1)) * cart_h) <$> seq 0 ((n + 1) * (n + 1));
    (λ v, 0) <$> seq 0 ((n + 1) * (n + 1)) ].

Definition cart_face_centers : list (list float) :=
  [ (λ f, if decide (f < nxf)%nat
          then Qc_of_nat (f mod (n + 1)) * cart_h
          else (Qc_of_nat ((f - nxf) mod n) + half) * cart_h) <$> seq 0 (2 * nxf);
    (λ f, if decide (f < nxf)%nat
          then (Qc_of_nat (f / (n + 1)) + half) * cart_h
          else Qc_of_nat ((f - nxf) / n) * cart_h) <$> seq 0 (2 * nxf);
    (λ f, 0) <$> seq 0 (2 * nxf) ].

Definition cart_cell_centers : list (list float) :=
  [ (λ c, (Qc_of_nat (c mod n) + half) * cart_h) <$> seq 0 (n * n);
    (λ c, (Qc_of_nat (c / n) + half) * cart_h) <$> seq 0 (n * n);
    (λ c, 0) <$> seq 0 (n * n) ].

Definition cart_face_normals : list (list float) :=
  [ (λ f, if decide (f < nxf)%nat then cart_h else 0) <$> seq 0 (2 * nxf);
    (λ f, if decide (f < nxf)%nat then 0 else cart_h) <$> seq 0 (2 * nxf);
    (λ f, 0) <$> seq 0 (2 * nxf) ].

(** The face is the east ([1]) or west ([-1]) side of the cell for the
    first family, its north ([1]) or south ([-1]) side for the second. *)
Definition cart_sign (f c : nat) : Z :=
  if decide (f < nxf)%nat then
    if decide (f / (n + 1) = c / n ∧ f mod (n + 1) = c mod n + 1)%nat then 1
    else if decide (f / (n + 1) = c / n ∧ f mod (n + 1) = c mod n)%nat then -1
    else 0
  else
    if decide ((f - nxf) mod n = c mod n ∧ (f - nxf) / n = c / n + 1)%nat then 1
    else if decide ((f - nxf) mod n = c mod n ∧ (f - nxf) / n = c / n)%nat then -1
    else 0.

Definition cart_cell_faces : list (list Z) :=
  (λ f, (λ c, cart_sign f c) <$> seq 0 (n * n)) <$> seq 0 (2 * nxf).

Definition cart_boundary (f : nat) : bool :=
  if decide (f < nxf)%nat
  then bool_decide (f mod (n + 1) = 0 ∨ f mod (n + 1) = n)%nat
  else bool_decide ((f - nxf) / n = 0 ∨ (f - nxf) / n = n)%nat.

Definition CartGrid : Grid :=
  {| num_cells := n * n;
     num_faces := 2 * nxf;
     nodes := cart_nodes;
     face_centers := cart_face_centers;
     cell_centers := cart_cell_centers;
     face_normals := cart_face_normals;
     cell_faces := cart_cell_faces;
     tags := {[ "domain_boundary_faces" := cart_boundary <$> seq 0 (2 * nxf);
                "fracture_faces" := (λ _, false) <$> seq 0 (2 * nxf);
                "tip_faces" := (λ _, false) <$> seq 0 (2 * nxf) ]} |}.
End cart.

(** ** lab/lab10/solve_problem.py *)

(** *** Extended floats, for the arithmetic of line 96 *)

(** A float64 value: a number, an infinity or NaN.  The two zeros of
    float64 are one value here; line 96 only divides by a square, whose
    zero is the positive one. *)
Inductive xfloat : Type :=
  | Finite (q : Qc)
  | PosInf
  | NegInf
  | NaN.

(** The least magnitude that float64 arithmetic rounds to an infinity:
    [2^1024 - 2^970], half a unit in the last place above the largest
    finite double [2^1024 - 2^971]. *)
Definition float64_overflow : Qc := Qc_of_Z (2 ^ 1024 - 2 ^ 970).

(** The float64 result of an operation whose exact value is [q]:
    overflow gives an infinity; within the range the value is kept exact. *)
Definition to_float64 (q : Qc) : xfloat :=
  if decide (float64_overflow ≤ q) then PosInf
  else if decide (q ≤ - float64_overflow) then NegInf
  else Finite q.

(** An infinity times a number [x]. *)
Definition inf_times (pos : bool) (x : Qc) : xfloat :=
  if decide (x = 0) then NaN
  else if decide (0 < x) then (if pos then PosInf else NegInf)
  else (if pos then NegInf else PosInf).

Definition np_multiply (a b : xfloat) : xfloat :=
  match a, b with
  | NaN, _ | _, NaN => NaN
  | Finite x, Finite y => to_float64 (x * y)
  | Finite x, PosInf | PosInf, Finite x => inf_times true x
  | Finite x, NegInf | NegInf, Finite x => inf_times false x
  | PosInf, PosInf | NegInf, NegInf => PosInf
  | PosInf, NegInf | NegInf, PosInf => NegInf
  end.

Definition np_divide (a b : xfloat) : xfloat :=
  match a, b with
  | NaN, _ | _, NaN => NaN
  | Finite x, Finite y =>
      if decide (y = 0) then
        if decide (x = 0) then NaN
        else if decide (0 < x) then PosInf else NegInf
      else to_float64 (x / y)
  | Finite _, (PosInf | NegInf) => Finite 0
  | PosInf, Finite y => if decide (0 ≤ y) then PosInf else NegInf
  | NegInf, Finite y => if decide (0 ≤ y) then NegInf else PosInf
  | (PosInf | NegInf), (PosInf | NegInf) => NaN
  end.

(** The largest double below one, [1 - 2^-53]. *)
Definition float64_pred_one : Qc := 1 - / Qc_of_Z (2 ^ 53).

Definition pow2 (e : Z) : Qc :=
  if decide (0 ≤ e)%Z then Qc_of_Z (2 ^ e) else / Qc_of_Z (2 ^ (- e)).

(** The numbers of float64: [m * 2^e] with a significand [m] of at most
    53 bits and an exponent [e] from [-1074] to [971]. *)
Definition is_float64 (q : Qc) : Prop :=
  ∃ m e : Z, (Z.abs m < 2 ^ 53)%Z ∧ (-1074 ≤ e ≤ 971)%Z ∧ q = Qc_of_Z m * pow2 e.

Definition np_power3 (x : float) : xfloat := to_float64 (x * x * x).
Definition np_square (x : float) : xfloat := to_float64 (x * x).

(** Line 96, on one entry:
    [perm_ref * np.power(phi, 3) / np.square(1 - phi)].  The difference
    [1 - phi] of two doubles does not overflow. *)
Definition kozeny_carman (perm_ref phi : float) : xfloat :=
  np_divide (np_multiply (Finite perm_ref) (np_power3 phi)) (np_square (1 - phi)).

(** A value that is not negative: a number at least zero, plus infinity,
    or NaN. *)
Definition not_negative (x : xfloat) : Prop :=
  x = PosInf ∨ x = NaN ∨ ∃ q, x = Finite q ∧ 0 ≤ q.

Global Instance xfloat_eq_dec : EqDecision xfloat.
Proof. solve_decision. Defined.

(** *** Array construction *)

(** The least [m] with [k <= m * m]: the ceiling of the square root. *)
Definition ceil_sqrt (k : nat) : nat :=
  if decide (Nat.sqrt k * Nat.sqrt k = k)%nat then Nat.sqrt k else S (Nat.sqrt k).

(** [np.arange(1, np.sqrt(k) + 1)]: the values [1, 2, ...] below
    [sqrt k + 1]; there are [ceil (sqrt k)] of them. *)
Definition arange_1_sqrt (k : nat) : list float :=
  Qc_of_nat <$> seq 1 (ceil_sqrt k).

(** [np.meshgrid(x, y)] with the default indexing: two arrays of shape
    [(len y, len x)]. *)
Definition meshgrid (x y : list float) : list (list (list float)) :=
  [ (λ _, x) <$> y; (λ yi, (λ _, yi) <$> x) <$> y ].

Definition get3 (a : list (list (list float))) (i j k : nat) : float :=
  default 0 (r ← a !! i; s ← r !! j; s !! k).

(** [a.T] on an array of shape [(d0, d1, d2)]: the axes reversed. *)
Definition transpose3 (d0 d1 d2 : nat) (a : list (list (list float)))
    : list (list (list float)) :=
  (λ i, (λ j, (λ k, get3 a k j i) <$> seq 0 d0) <$> seq 0 d1) <$> seq 0 d2.

(** [a.reshape(-1, 2)] on the flattened array: rows of two, and an error
    when the size is odd. *)
Fixpoint pair_up (l : list float) : res (list (list float)) :=
  match l with
  | [] => Ok []
  | [_] => Raise (ValueError "cannot reshape array into shape (2)")
  | x :: y :: l' => r ← pair_up l'; Ok ([x; y] :: r)
  end.

Definition reshape_m1_2 (a : list (list (list float))) : res (list (list float)) :=
  pair_up (concat (concat a)).

(** *** Keyword arguments *)

Inductive kwval : Type :=
  | KNone
  | KInt (z : Z)
  | KFloat (q : float).

Definition kwargs_get (kwargs : gmap string kwval) (key : string) (dflt : kwval) : kwval :=
  default dflt (kwargs !! key).

(** The scalar operand of the product on line 96, as a double.  A Python
    integer is converted, which fails beyond the range of float64. *)
Definition as_float (v : kwval) : res float :=
  match v with
  | KNone => Raise (TypeError "unsupported operand type(s) for *: NoneType and float")
  | KInt z =>
      if decide (float64_overflow ≤ Qcabs (Q2Qc (inject_Z z)))
      then Raise (OverflowError "int too large to convert to float")
      else Ok (Q2Qc (inject_Z z))
  | KFloat q => Ok q
  end.

(** *** Names visible in the module *)

Inductive pyobj : Type :=
  | PyModule (name : string)
  | PyCallable (name : string)
  | PyStr (s : string).

(** The imports and the three definitions of the file. *)
Definition module_globals : gmap string pyobj :=
  list_to_map
    [ ("np", PyModule "numpy"); ("pp", PyModule "porepy");
      ("pg", PyModule "pygeon"); ("sps", PyModule "scipy.sparse");
      ("GaussianProcessRegressor", PyCallable "GaussianProcessRegressor");
      ("RBF", PyCallable "RBF");
      ("solve_problem", PyCallable "solve_problem");
      ("generate_perm", PyCallable "generate_perm");
      ("generate_", PyCallable "generate_") ].

(** The built-in functions of Python 3. *)
Definition builtin_names : list string :=
  [ "abs"; "aiter"; "all"; "anext"; "any"; "ascii"; "bin"; "bool";
    "breakpoint"; "bytearray"; "bytes"; "callable"; "chr"; "classmethod";
    "compile"; "complex"; "delattr"; "dict"; "dir"; "divmod"; "enumerate";
    "eval"; "exec"; "filter"; "float"; "format"; "frozenset"; "getattr";
    "globals"; "hasattr"; "hash"; "help"; "hex"; "id"; "input"; "int";
    "isinstance"; "issubclass"; "iter"; "len"; "list"; "locals"; "map";
    "max"; "memoryview"; "min"; "next"; "object"; "oct"; "open"; "ord";
    "pow"; "print"; "property"; "range"; "repr"; "reversed"; "round";
    "set"; "setattr"; "slice"; "sorted"; "staticmethod"; "str"; "sum";
    "super"; "tuple"; "type"; "vars"; "zip"; "__import__" ].

Definition builtins : gmap string pyobj :=
  list_to_map ((λ s, (s, PyCallable s)) <$> builtin_names).

(** A name that is not local to the function: the module's globals, then
    the built-ins, then [NameError]. *)
Definition load_global (name : string) : res pyobj :=
  match module_globals !! name with
  | Some v => Ok v
  | None => from_option (NameError name) (builtins !! name)
  end.

Module Lab10.

(** Lines 30 to 41: as in lab99, with the inflow mask in between, which
    nothing reads afterwards. *)
Definition boundary_conditions (sd : Grid) : res BoundaryData :=
  tag ← lookup_key (tags sd) "domain_boundary_faces";
  let b_faces := nonzero tag in
  b_face_centers ← take_cols (face_centers sd) b_faces;
  bfc1 ← getrow b_face_centers 1;
  nodes1 ← getrow (nodes sd) 1;
  top ← amax nodes1;
  let out_flow := np_isclose bfc1 top in
  bfc1' ← getrow b_face_centers 1;
  nodes1' ← getrow (nodes sd) 1;
  bottom ← amin nodes1';
  let in_flow := np_isclose bfc1' bottom in
  let labels := replicate (length b_faces) "dir" in
  fc1 ← getrow (face_centers sd) 1;
  let bc_val := (λ y, 1 - y) <$> fc1 in
  bc ← make_BoundaryCondition sd b_faces labels;
  Ok {| bd_faces := b_faces; bd_out_flow := out_flow; bd_labels := labels;
        bd_values := bc_val; bd_bc := bc |}.

Definition solve_problem (sd : Grid) (perm : conductivity)
    : res (list float * float) :=
  let key := "flow" in
  kxx ← mul_ones perm (num_cells sd);
  let sot := SecondOrderTensor kxx in
  bd ← boundary_conditions sd;
  flow_solve key sd sot bd.

(** The kernel object [RBF(length_scale=params)]. *)
Record RBF : Type := { length_scale : float }.

Section generators.
(** The external collaborators of the generator, which the repository
    only calls: the process-wide generator of [np.random], the
    Gaussian-process regressor, and the text loader. *)
Variable RandomState : Type.
(** [np.random.seed(s)] for an integer [s]. *)
Variable seeded : Z → RandomState.
(** [np.random.rand(n)]: [n] draws and the state they leave. *)
Variable rand : RandomState → nat → list float * RandomState.
(** The fitted regressor. *)
Variable GaussianProcessRegressor : Type.
(** [GaussianProcessRegressor(kernel=kernel, optimizer=None).fit(X, y)] *)
Variable gp_fit : RBF → list (list float) → list float → res GaussianProcessRegressor.
(** [gp.sample_y(X, n_samples)] *)
Variable gp_sample_y :
  GaussianProcessRegressor → list (list float) → nat → res (list (list float)).
(** [np.loadtxt(fname, dtype)] *)
Variable loadtxt : pyobj → pyobj → res (list float).

(** [np.random.seed(v)]: an integer in range installs the state it
    determines; [None] installs a state drawn from the operating system,
    [fresh]. *)
Definition np_random_seed (fresh : RandomState) (v : kwval) : res RandomState :=
  match v with
  | KNone => Ok fresh
  | KInt z =>
      if decide (0 ≤ z < 2 ^ 32)%Z then Ok (seeded z)
      else Raise (ValueError "Seed must be between 0 and 2**32 - 1")
  | KFloat _ => Raise (TypeError "Cannot cast scalar to int")
  end.

(** The function reads the process-wide generator state [st] only to
    replace it; it returns the permeability array and the state it
    leaves. *)
Definition generate_perm (st fresh : RandomState) (sd : Grid) (params : float)
    (kwargs : gmap string kwval) : res (list xfloat * RandomState) :=
  st ← np_random_seed fresh (kwargs_get kwargs "seed" KNone);
  let kernel := {| length_scale := params |} in
  let space := arange_1_sqrt (num_cells sd) in
  xy ← reshape_m1_2
         (transpose3 2 (length space) (length space) (meshgrid space space));
  let '(y_train, st) := rand st (length xy) in
  gp ← gp_fit kernel xy y_train;
  samples ← gp_sample_y gp xy 1;
  let phi := concat samples in
  let phi := Qcabs <$> phi in
  perm_ref ← as_float (kwargs_get kwargs "perm_ref" (KInt 1));
  let perm := kozeny_carman perm_ref <$> phi in
  Ok (perm, st).

Definition generate_ (file_name : string) : res (Grid * list float) :=
  np ← load_global "np";
  skip ← load_global "skip";
  porosity ← loadtxt (PyStr file_name) skip;
  let dim := 2%nat in
  let sd := CartGrid 25 in
  Ok (sd, porosity).
End generators.

End Lab10.

(** * Properties *)

(** ** The error monad *)

Lemma bind_Ok {A B} (m : res A) (k : A → res B) (b : B) :
  m ≫= k = Ok b ↔ ∃ a, m = Ok a ∧ k a = Ok b.
Proof.
  destruct m as [a|e]; simpl; split.
  - intros H. by exists a.
  - by intros (a' & [= ->] & H).
  - intros H. discriminate H.
  - by intros (a' & H & _).
Qed.

Lemma from_option_Ok {A} (e : exn) (o : option A) (a : A) :
  from_option e o = Ok a ↔ o = Some a.
Proof. destruct o; simpl; split; congruence. Qed.

Lemma getitem_Ok {A} (l : list A) (i : nat) (a : A) :
  getitem l i = Ok a ↔ l !! i = Some a.
Proof. apply from_option_Ok. Qed.

(** ** The inflow mask of lab10 is dead code *)

Lemma amin_after_amax (a : list float) (top : float) :
  amax a = Ok top → ∃ bottom, amin a = Ok bottom.
Proof. destruct a as [|x a']; [discriminate | eauto]. Qed.

Lemma boundary_conditions_agree (sd : Grid) :
  Lab10.boundary_conditions sd = Lab99.boundary_conditions sd.
Proof.
  unfold Lab10.boundary_conditions, Lab99.boundary_conditions.
  destruct (lookup_key (tags sd) "domain_boundary_faces") as [tag|]; simpl; [|done].
  destruct (take_cols (face_centers sd) (nonzero tag)) as [bfc|]; simpl; [|done].
  destruct (getrow bfc 1) as [bfc1|] eqn:Hrow; simpl; [|done].
  destruct (getrow (nodes sd) 1) as [nodes1|] eqn:Hnodes; simpl; [|done].
  destruct (amax nodes1) as [top|] eqn:Hmax; simpl; [|done].
  destruct (amin_after_amax _ _ Hmax) as [bottom ->]. done.
Qed.

(** C10.  The two scripts compute the same function: on every grid and
    every conductivity argument, [solve_problem] of lab10 and
    [solve_problem] of lab99 return the same pressure vector and the same
    outflow, or raise the same exception.  The inflow mask that only lab10
    computes is read by nothing and cannot fail once the outflow mask has
    been computed. *)
Theorem solve_problem_lab10_lab99 (sd : Grid) (perm : conductivity) :
  Lab10.solve_problem sd perm = Lab99.solve_problem sd perm.
Proof.
  unfold Lab10.solve_problem, Lab99.solve_problem.
  by rewrite boundary_conditions_agree.
Qed.

(** ** The file loader *)

(** C9.  Whatever the file name (and whatever the text loader would do),
    [generate_] raises [NameError] for the name [skip] before the loader is
    called: [skip] is neither a local, nor a global of the module, nor a
    built-in. *)
Theorem generate__raises_name_error
    (loadtxt : pyobj → pyobj → res (list float)) (file_name : string) :
  Lab10.generate_ loadtxt file_name = Raise (NameError "skip").
Proof. reflexivity. Qed.

(** ** The boundary block *)

Lemma res_mapM_Ok {A B} (f : A → res B) (l : list A) :
  (∀ a, a ∈ l → ∃ b, f a = Ok b) →
  ∃ bs, res_mapM f l = Ok bs ∧ length bs = length l
        ∧ ∀ i a, l !! i = Some a → ∃ b, bs !! i = Some b ∧ f a = Ok b.
Proof.
  induction l as [|a l IH]; intros Hf; simpl.
  - exists []. split_and!; [done..|]. intros i a H. by rewrite lookup_nil in H.
  - destruct (Hf a) as [b Hb]; [left|].
    destruct IH as (bs & Hbs & Hlen & Hnth).
    { intros a' Ha'. apply Hf. by right. }
    exists (b :: bs). rewrite Hb, Hbs. simpl. split_and!; [done|by f_equal|].
    intros [|i] a' Hi; simpl in *.
    + injection Hi as <-. eauto.
    + eauto.
Qed.

Lemma take_idx_Ok {A} (a : list A) (idx : list nat) :
  (∀ i, i ∈ idx → (i < length a)%nat) →
  ∃ bs, take_idx a idx = Ok bs ∧ length bs = length idx
        ∧ ∀ j i, idx !! j = Some i → bs !! j = a !! i.
Proof.
  intros Hin. unfold take_idx.
  destruct (res_mapM_Ok (getitem a) idx) as (bs & Hbs & Hlen & Hnth).
  { intros i Hi. destruct (lookup_lt_is_Some_2 a i (Hin i Hi)) as [x Hx].
    exists x. by apply getitem_Ok. }
  exists bs. split_and!; [done..|].
  intros j i Hj. destruct (Hnth j i Hj) as (b & Hb & Hget).
  apply getitem_Ok in Hget. congruence.
Qed.

Lemma elem_of_nonzero (a : list bool) (i : nat) :
  i ∈ nonzero a ↔ a !! i = Some true.
Proof.
  unfold nonzero. rewrite list_elem_of_filter, elem_of_seq. split.
  - by intros [? _].
  - intros H. split; [done|]. apply lookup_lt_Some in H. lia.
Qed.

Lemma NoDup_nonzero (a : list bool) : NoDup (nonzero a).
Proof. apply NoDup_filter, NoDup_seq. Qed.

Lemma nonzero_lt (a : list bool) (i : nat) : i ∈ nonzero a → (i < length a)%nat.
Proof. rewrite elem_of_nonzero. apply lookup_lt_Some. Qed.

(** Marking Dirichlet faces one after the other. *)
Lemma foldl_mark_dir (faces : list nat) (d : list bool) :
  (∀ f, f ∈ faces → (f < length d)%nat) →
  ∃ d', foldl mark_dir (Ok d) (zip faces (replicate (length faces) "dir")) = Ok d'
        ∧ length d' = length d
        ∧ ∀ f, d' !! f = Some true ↔ (f ∈ faces ∨ d !! f = Some true).
Proof.
  revert d. induction faces as [|f0 faces IH]; intros d Hlt; simpl.
  - exists d. split_and!; [done..|]. intros f. rewrite elem_of_nil. tauto.
  - rewrite decide_True by (apply Hlt; left).
    destruct (IH (<[f0:=true]> d)) as (d' & Hd' & Hlen & Hiff).
    { intros f Hf. rewrite length_insert. apply Hlt. by right. }
    exists d'. split_and!; [done|by rewrite Hlen, length_insert|].
    intros f. rewrite Hiff, elem_of_cons.
    destruct (decide (f = f0)) as [->|Hne].
    + rewrite list_lookup_insert_eq by (apply Hlt; left). tauto.
    + rewrite list_lookup_insert_ne by done. assert (f = f0 → False) by done. tauto.
Qed.

Lemma make_BoundaryCondition_Ok (sd : Grid) (faces : list nat) :
  (∀ f, f ∈ faces → (f < num_faces sd)%nat) →
  ∃ bc, make_BoundaryCondition sd faces (replicate (length faces) "dir") = Ok bc
        ∧ length (is_dir bc) = num_faces sd
        ∧ ∀ f, is_dir bc !! f = Some true ↔ f ∈ faces.
Proof.
  intros Hlt. unfold make_BoundaryCondition.
  rewrite decide_True by (by rewrite length_replicate).
  destruct (foldl_mark_dir faces (replicate (num_faces sd) false)) as (d & -> & Hlen & Hiff).
  { intros f Hf. rewrite length_replicate. by apply Hlt. }
  simpl. eexists. split_and!; [done|simpl; by rewrite Hlen, length_replicate|].
  intros f. simpl. rewrite Hiff. split; [|by left].
  intros [H|H]; [done|]. apply lookup_replicate in H as [[=] _].
Qed.

(** A grid whose geometry has been computed: one boundary tag per face, at
    least two rows of face-centre coordinates with one entry per face, and at
    least two rows of node coordinates with at least one node. *)
Definition geometry_ready (sd : Grid) : Prop :=
  (∃ tag, tags sd !! "domain_boundary_faces" = Some tag
          ∧ length tag = num_faces sd)
  ∧ (2 ≤ length (face_centers sd))%nat
  ∧ Forall (λ row, length row = num_faces sd) (face_centers sd)
  ∧ (∃ ys, nodes sd !! 1%nat = Some ys ∧ ys ≠ []).

Lemma boundary_conditions_Ok (sd : Grid) (tag : list bool) :
  geometry_ready sd →
  tags sd !! "domain_boundary_faces" = Some tag →
  ∃ bd fc1 bfc1 ys top,
    Lab99.boundary_conditions sd = Ok bd
    ∧ face_centers sd !! 1%nat = Some fc1
    ∧ length fc1 = num_faces sd
    ∧ nodes sd !! 1%nat = Some ys
    ∧ amax ys = Ok top
    ∧ bd_faces bd = nonzero tag
    ∧ bd_labels bd = replicate (length (nonzero tag)) "dir"
    ∧ bd_values bd = (λ y, 1 - y) <$> fc1
    ∧ bd_out_flow bd = np_isclose bfc1 top
    ∧ length bfc1 = length (nonzero tag)
    ∧ (∀ j f, nonzero tag !! j = Some f → bfc1 !! j = fc1 !! f)
    ∧ length (is_dir (bd_bc bd)) = num_faces sd
    ∧ (∀ f, is_dir (bd_bc bd) !! f = Some true ↔ f ∈ nonzero tag).
Proof.
  intros ((tag' & Htag' & Hlen) & Hrows & Hall & (ys & Hys & Hne)) Htag.
  assert (tag' = tag) as -> by congruence.
  unfold Lab99.boundary_conditions, lookup_key. rewrite Htag. simpl.
  assert (Hidx : ∀ row, row ∈ face_centers sd →
            ∀ i, i ∈ nonzero tag → (i < length row)%nat).
  { intros row Hrow i Hi. rewrite Forall_forall in Hall.
    rewrite (Hall row Hrow), <- Hlen. by apply nonzero_lt. }
  destruct (res_mapM_Ok (λ row, take_idx row (nonzero tag)) (face_centers sd))
    as (bfc & Hbfc & Hbl & Hbn).
  { intros row Hrow. destruct (take_idx_Ok row (nonzero tag)) as (bs & ? & _); eauto. }
  unfold take_cols. rewrite Hbfc. simpl.
  destruct (lookup_lt_is_Some_2 (face_centers sd) 1) as [fc1 Hfc1]; [lia|].
  destruct (Hbn 1%nat fc1 Hfc1) as (bfc1 & Hbfc1 & Htake).
  unfold getrow, getitem. rewrite Hbfc1, Hys, Hfc1. simpl.
  destruct ys as [|y0 ys]; [done|]. simpl.
  destruct (make_BoundaryCondition_Ok sd (nonzero tag)) as (bc & Hbc & Hbclen & Hdir).
  { intros f Hf. rewrite <- Hlen. by apply nonzero_lt. }
  rewrite Hbc. simpl.
  destruct (take_idx_Ok fc1 (nonzero tag)) as (bs & Hbs & Hbslen & Hbsn).
  { apply Hidx. by eapply list_elem_of_lookup_2. }
  assert (bs = bfc1) as -> by congruence.
  assert (length fc1 = num_faces sd).
  { rewrite Forall_forall in Hall. apply Hall. by eapply list_elem_of_lookup_2. }
  eexists _, fc1, bfc1, (y0 :: ys), _. simpl. split_and!; done.
Qed.

(** C5.  On a grid whose geometry has been computed, the boundary block of
    [solve_problem] (both scripts) succeeds and labels every detected
    boundary face, side faces included, as Dirichlet: the listed faces are
    exactly the tagged ones, each once; there are as many labels as listed
    faces, all of them ["dir"]; the boundary condition object marks exactly
    these faces; and the value stored for a boundary face is one minus the
    second coordinate of its centre. *)
Theorem boundary_faces_all_dirichlet (sd : Grid) (tag : list bool) :
  geometry_ready sd →
  tags sd !! "domain_boundary_faces" = Some tag →
  ∃ bd fc1,
    Lab10.boundary_conditions sd = Ok bd
    ∧ Lab99.boundary_conditions sd = Ok bd
    ∧ face_centers sd !! 1%nat = Some fc1
    ∧ NoDup (bd_faces bd)
    ∧ (∀ f, f ∈ bd_faces bd ↔ tag !! f = Some true)
    ∧ length (bd_labels bd) = length (bd_faces bd)
    ∧ (∀ j f, bd_faces bd !! j = Some f →
         bd_labels bd !! j = Some "dir"
         ∧ is_dir (bd_bc bd) !! f = Some true
         ∧ ∃ y, fc1 !! f = Some y ∧ bd_values bd !! f = Some (1 - y))
    ∧ (∀ f, is_dir (bd_bc bd) !! f = Some true → f ∈ bd_faces bd).
Proof.
  intros Hwf Htag.
  destruct (boundary_conditions_Ok sd tag Hwf Htag)
    as (bd & fc1 & bfc1 & ys & top & Hbd & Hfc1 & Hfl & _ & _ & Hf & Hl & Hv & _ & _ & _ & Hdl & Hdir).
  exists bd, fc1. rewrite boundary_conditions_agree, Hf, Hl, Hv.
  split_and!; try done.
  - apply NoDup_nonzero.
  - apply elem_of_nonzero.
  - by rewrite length_replicate.
  - intros j f Hj. split_and!.
    + apply lookup_replicate. split; [done|]. by eapply lookup_lt_Some.
    + apply Hdir. by eapply list_elem_of_lookup_2.
    + assert (f < length fc1)%nat as Hlt.
      { rewrite Hfl. destruct Hwf as ((tag' & Ht & <-) & _).
        assert (tag' = tag) as -> by congruence.
        apply nonzero_lt. by eapply list_elem_of_lookup_2. }
      destruct (lookup_lt_is_Some_2 fc1 f Hlt) as [y Hy].
      exists y. split; [done|]. by rewrite list_lookup_fmap, Hy.
  - intros f. by rewrite Hdir.
Qed.

(** ** Rational arithmetic *)

Lemma Qc_eq_Qeq (x y : Qc) : x = y ↔ (this x == this y)%Q.
Proof. split; [by intros ->|apply Qc_is_canon]. Qed.

(** Turn a goal on [Qc] into a goal on [Q], where [lra] and [nra] work. *)
Ltac qc2q :=
  repeat match goal with
  | H : @eq Qc _ _ |- _ => apply Qc_eq_Qeq in H
  | H : ¬ @eq Qc _ _ |- _ => rewrite Qc_eq_Qeq in H
  | |- @eq Qc _ _ => apply Qc_eq_Qeq
  | |- ¬ @eq Qc _ _ => rewrite Qc_eq_Qeq
  end;
  repeat (progress
    (unfold Qcle, Qclt, Qcplus, Qcmult, Qcminus, Qcopp, Qcdiv, Qcinv, Q2Qc in *;
     cbn [this] in *; rewrite ?Qred_correct in * ));
  repeat match goal with x : Qc |- _ => destruct x as [? ?]; cbn [this] in * end.

Lemma Qcabs_nonneg (x : Qc) : 0 ≤ Qcabs x.
Proof.
  unfold Qcabs. destruct (decide (x < 0)) as [H|H].
  - qc2q. lra.
  - by apply Qcnot_lt_le.
Qed.

Lemma Qcdiv_nonneg (a b : Qc) : 0 ≤ a → 0 < b → 0 ≤ a / b.
Proof.
  intros Ha Hb. unfold Qcdiv. apply Qcmult_nonneg_nonneg; [done|].
  by apply Qclt_le_weak, Qcinv_pos.
Qed.

(** ** The Kozeny-Carman map *)

Lemma Qcdiv_le_cross (a b c d : Qc) :
  0 < b → 0 < d → a * d ≤ c * b → a / b ≤ c / d.
Proof.
  intros Hb Hd H.
  apply (Qcmult_le_mono_pos_r _ _ (b * d)); [by apply Qcmult_pos_pos|].
  assert (a / b * (b * d) = a * d) as ->.
  { field. intros E. rewrite E in Hb. by apply Qclt_not_eq in Hb. }
  assert (c / d * (b * d) = c * b) as ->.
  { field. intros E. rewrite E in Hd. by apply Qclt_not_eq in Hd. }
  done.
Qed.

(** Within the range of float64 a value that is not negative is kept. *)
Lemma to_float64_Finite (q : Qc) :
  0 ≤ q → q < float64_overflow → to_float64 q = Finite q.
Proof.
  intros Hlo Hhi. unfold to_float64.
  rewrite decide_False by (by apply Qclt_not_le).
  rewrite decide_False; [done|]. apply Qclt_not_le.
  apply Qclt_le_trans with 0; [by vm_compute|done].
Qed.

(** A value that is not negative never becomes minus infinity. *)
Lemma to_float64_nonneg (q : Qc) :
  0 ≤ q → to_float64 q = PosInf ∨ to_float64 q = Finite q.
Proof.
  intros Hq. destruct (decide (float64_overflow ≤ q)) as [H|H].
  - left. unfold to_float64. by rewrite decide_True.
  - right. apply to_float64_Finite; [done|]. by apply Qcnot_le_lt.
Qed.

Lemma cube_nonneg (x : Qc) : 0 ≤ x → 0 ≤ x * x * x.
Proof. intros. repeat apply Qcmult_nonneg_nonneg; done. Qed.

Lemma square_nonneg (x : Qc) : 0 ≤ x * x.
Proof. qc2q. nra. Qed.

Lemma inf_times_nonneg (x : Qc) :
  0 ≤ x → inf_times true x = NaN ∨ inf_times true x = PosInf.
Proof.
  intros Hx. unfold inf_times. repeat case_decide; eauto.
  exfalso. destruct (Qcle_lt_or_eq _ _ Hx); [done|congruence].
Qed.

(** Whatever overflows, the sign survives: with [perm_ref] and [phi] not
    negative the permeability is not negative. *)
Lemma kozeny_carman_not_negative (perm_ref phi : float) :
  0 ≤ perm_ref → 0 ≤ phi → not_negative (kozeny_carman perm_ref phi).
Proof.
  intros Href Hphi. unfold kozeny_carman, np_power3, np_square, not_negative.
  pose proof (cube_nonneg phi Hphi) as Hc.
  pose proof (square_nonneg (1 - phi)) as Hs.
  assert (0 ≤ perm_ref * (phi * phi * phi)) as Hn by (by apply Qcmult_nonneg_nonneg).
  destruct (to_float64_nonneg _ Hc) as [-> | ->];
    destruct (to_float64_nonneg _ Hs) as [-> | ->]; simpl.
  - destruct (inf_times_nonneg _ Href) as [-> | ->]; eauto.
  - destruct (inf_times_nonneg _ Href) as [-> | ->]; [eauto|].
    unfold np_divide. case_decide; [eauto|done].
  - destruct (to_float64_nonneg _ Hn) as [-> | ->]; eauto 10.
  - destruct (to_float64_nonneg _ Hn) as [-> | ->]; unfold np_divide.
    + case_decide; [eauto|done].
    + case_decide as Hz.
      * repeat case_decide; eauto.
        exfalso. destruct (Qcle_lt_or_eq _ _ Hn); [done|congruence].
      * assert (0 ≤ perm_ref * (phi * phi * phi) / ((1 - phi) * (1 - phi))) as Hq.
        { apply Qcdiv_nonneg; [done|]. destruct (Qcle_lt_or_eq _ _ Hs); [done|congruence]. }
        destruct (to_float64_nonneg _ Hq) as [-> | ->]; eauto 10.
Qed.

Lemma float64_pred_one_gap : 0 < 1 - float64_pred_one.
Proof. by vm_compute. Qed.

(** [2^917 / (2^-53)^2 = 2^1023] is below the overflow threshold. *)
Lemma float64_quotient_bound :
  Qc_of_Z (2 ^ 917) / ((1 - float64_pred_one) * (1 - float64_pred_one))
  < float64_overflow.
Proof. by vm_compute. Qed.

(** Up to the largest double below one no operation of line 96 overflows
    and the denominator is not zero. *)
Lemma kozeny_carman_below_one (perm_ref phi : float) :
  0 ≤ perm_ref → perm_ref ≤ Qc_of_Z (2 ^ 917) →
  0 ≤ phi → phi ≤ float64_pred_one →
  kozeny_carman perm_ref phi
  = Finite (perm_ref * (phi * phi * phi) / ((1 - phi) * (1 - phi)))
  ∧ 0 ≤ perm_ref * (phi * phi * phi) / ((1 - phi) * (1 - phi)).
Proof.
  intros Href Hmax Hphi Hlt.
  pose proof float64_pred_one_gap as Hgap.
  pose proof float64_quotient_bound as Hbound.
  set (g := 1 - float64_pred_one) in *.
  assert (g ≤ 1 - phi) as Hg by (subst g; qc2q; lra).
  assert (1 - phi ≤ 1) as Hd1 by (qc2q; lra).
  assert (phi ≤ 1) as Hphi1 by (qc2q; lra).
  assert (0 < 1 - phi) as Hdpos by (by apply Qclt_le_trans with g).
  pose proof (cube_nonneg phi Hphi) as Hc.
  assert (phi * phi * phi ≤ 1) as Hc1.
  { clear -Hphi Hphi1. qc2q. nra. }
  assert (g * g ≤ (1 - phi) * (1 - phi)) as Hs.
  { clear -Hgap Hg. generalize dependent (1 - phi). intros d Hd. qc2q. nra. }
  assert ((1 - phi) * (1 - phi) ≤ 1) as Hs1.
  { clear -Hdpos Hd1. generalize dependent (1 - phi). intros d ? ?. qc2q. nra. }
  assert (0 < g * g) as Hgg by (by apply Qcmult_pos_pos).
  assert (0 < (1 - phi) * (1 - phi)) as Hspos by (by apply Qcmult_pos_pos).
  assert (0 ≤ perm_ref * (phi * phi * phi)) as Hn by (by apply Qcmult_nonneg_nonneg).
  assert (perm_ref * (phi * phi * phi) ≤ Qc_of_Z (2 ^ 917)) as Hn1.
  { trans (perm_ref * 1); [by apply Qcmult_le_mono_nonneg_l|]. by rewrite Qcmult_1_r. }
  assert (0 ≤ perm_ref * (phi * phi * phi) / ((1 - phi) * (1 - phi))) as Hq.
  { by apply Qcdiv_nonneg. }
  split; [|done].
  unfold kozeny_carman, np_power3, np_square.
  rewrite (to_float64_Finite (phi * phi * phi)); [|done|].
  2:{ apply Qcle_lt_trans with 1; [done|by vm_compute]. }
  rewrite (to_float64_Finite ((1 - phi) * (1 - phi))); [|by apply Qclt_le_weak|].
  2:{ apply Qcle_lt_trans with 1; [done|by vm_compute]. }
  unfold np_multiply.
  rewrite to_float64_Finite; [|done|].
  2:{ apply Qcle_lt_trans with (Qc_of_Z (2 ^ 917)); [done|by vm_compute]. }
  unfold np_divide.
  case_decide as E; [rewrite E in Hspos; destruct (Qclt_not_eq _ _ Hspos eq_refl)|].
  apply to_float64_Finite; [done|].
  eapply Qcle_lt_trans; [|exact Hbound].
  apply Qcdiv_le_cross; [done|done|].
  trans (Qc_of_Z (2 ^ 917) * (g * g)).
  - apply Qcmult_le_mono_nonneg_r; [by apply Qclt_le_weak|done].
  - apply Qcmult_le_mono_nonneg_l; [by trans perm_ref|done].
Qed.

Lemma float64_pred_one_quotient :
  float64_pred_one = Qc_of_Z (2 ^ 53 - 1) / Qc_of_Z (2 ^ 53).
Proof. apply Qc_is_canon. by vm_compute. Qed.

(** Every double strictly below one is at most [1 - 2^-53]. *)
Lemma float64_below_one (q : Qc) : is_float64 q → q < 1 → q ≤ float64_pred_one.
Proof.
  intros (m & e & Hm & He & ->) Hlt. unfold pow2 in *.
  case_decide as Hsign.
  - rewrite <- Z2Qc_inj_mul in *. rewrite <- Z2Qc_inj_1 in Hlt.
    apply Z2Qc_inj_lt in Hlt.
    trans (Qc_of_Z 0); [apply (proj1 (Z2Qc_inj_le _ _)); lia|by vm_compute].
  - set (k := (- e)%Z) in *.
    assert (0 < 2 ^ k)%Z as Hk by (apply Z.pow_pos_nonneg; lia).
    assert (0 < Qc_of_Z (2 ^ k)) as HkQ.
    { rewrite <- Z2Qc_inj_0. by apply (proj1 (Z2Qc_inj_lt _ _)). }
    assert (m < 2 ^ k)%Z as Hmk.
    { apply (proj2 (Z2Qc_inj_lt _ _)).
      apply (Qcmult_lt_mono_pos_r _ _ (Qc_of_Z (2 ^ k))) in Hlt; [|done].
      rewrite Qcmult_1_l in Hlt.
      replace (Qc_of_Z m * / Qc_of_Z (2 ^ k) * Qc_of_Z (2 ^ k)) with (Qc_of_Z m) in Hlt; [done|].
      field. intros E. rewrite E in HkQ. destruct (Qclt_not_eq _ _ HkQ eq_refl). }
    rewrite float64_pred_one_quotient.
    change (Qc_of_Z m * / Qc_of_Z (2 ^ k)) with (Qc_of_Z m / Qc_of_Z (2 ^ k)).
    apply Qcdiv_le_cross; [done| |].
    { rewrite <- Z2Qc_inj_0. by apply (proj1 (Z2Qc_inj_lt _ _)). }
    rewrite <- !Z2Qc_inj_mul. apply (proj1 (Z2Qc_inj_le _ _)).
    set (A := (2 ^ 53)%Z) in *. assert (0 < A)%Z by (subst A; lia).
    destruct (decide (k ≤ 53)%Z) as [Hk53|Hk53].
    + assert (2 ^ k ≤ A)%Z by (subst A; apply Z.pow_le_mono_r; lia). nia.
    + assert (A ≤ 2 ^ k)%Z by (subst A; apply Z.pow_le_mono_r; lia).
      assert (m ≤ A - 1)%Z by lia.
      destruct (decide (m ≤ 0)%Z); nia.
Qed.

(** C7, as amended.  For a reference permeability from zero to [2^917]
    (the default is one) and a porosity [phi = |sample|] that is a double
    strictly below one, the permeability [perm_ref * phi^3 / (1 - phi)^2]
    is a finite number and not negative.  At [phi = 1] the denominator is
    zero and the division, which nothing guards, yields no finite number:
    plus infinity, or NaN when [perm_ref] is zero. *)
Theorem kozeny_carman_finite_nonneg (perm_ref sample : float) :
  0 ≤ perm_ref →
  (perm_ref ≤ Qc_of_Z (2 ^ 917) → is_float64 (Qcabs sample) → Qcabs sample < 1 →
     ∃ q, kozeny_carman perm_ref (Qcabs sample) = Finite q ∧ 0 ≤ q)
  ∧ (Qcabs sample = 1 →
     np_square (1 - Qcabs sample) = Finite 0
     ∧ kozeny_carman perm_ref (Qcabs sample)
       = if decide (perm_ref = 0) then NaN else PosInf).
Proof.
  intros Href. pose proof (Qcabs_nonneg sample) as Hphi.
  set (phi := Qcabs sample) in *. clearbody phi. split.
  - intros Hmax Hfl Hlt. eexists.
    apply kozeny_carman_below_one; [done|done|done|].
    by apply float64_below_one.
  - intros ->.
    assert (np_square (1 - 1) = Finite 0) as Hz.
    { apply (bool_decide_eq_true_1 (np_square (1 - 1) = Finite 0)). by vm_compute. }
    split; [done|]. unfold kozeny_carman. rewrite Hz.
    assert (np_power3 1 = Finite 1) as ->.
    { apply (bool_decide_eq_true_1 (np_power3 1 = Finite 1)). by vm_compute. }
    unfold np_multiply. rewrite Qcmult_1_r.
    destruct (to_float64_nonneg _ Href) as [E | ->]; unfold np_divide.
    + rewrite E. rewrite decide_True by done.
      case_decide as E0; [|done]. subst perm_ref. by vm_compute in E.
    + rewrite decide_True by done.
      case_decide as E0; [done|]. rewrite decide_True; [done|].
      destruct (Qcle_lt_or_eq _ _ Href); [done|congruence].
Qed.

(** The claim without the sign condition on [perm_ref] fails: with
    [perm_ref = -1] and porosity [1/2] the permeability is [-1/2]. *)
Lemma kozeny_carman_negative_perm_ref :
  ¬ (∀ perm_ref sample : float,
       is_float64 (Qcabs sample) → Qcabs sample < 1 →
       ∃ q, kozeny_carman perm_ref (Qcabs sample) = Finite q ∧ 0 ≤ q).
Proof.
  intros H. destruct (H (- 1) (Q2Qc (1 # 2))) as (q & Hq & Hpos).
  - exists 1%Z, (-1)%Z. split_and!; [done|lia|lia|]. apply Qc_is_canon. by vm_compute.
  - by vm_compute.
  - assert (kozeny_carman (- 1) (Qcabs (Q2Qc (1 # 2))) = Finite (Q2Qc (- 1 # 2))) as E.
    { apply (bool_decide_eq_true_1
               (kozeny_carman (- 1) (Qcabs (Q2Qc (1 # 2))) = Finite (Q2Qc (- 1 # 2)))).
      by vm_compute. }
    rewrite E in Hq. injection Hq as <-. by vm_compute in Hpos.
Qed.

(** Above the bound on [perm_ref] the quotient overflows. *)
Lemma kozeny_carman_overflow :
  kozeny_carman (Qc_of_Z (2 ^ 1023)) (Q2Qc (3 # 4)) = PosInf.
Proof.
  apply (bool_decide_eq_true_1
           (kozeny_carman (Qc_of_Z (2 ^ 1023)) (Q2Qc (3 # 4)) = PosInf)).
  by vm_compute.
Qed.

(** A porosity far above one: cube and square both overflow and their
    quotient is NaN. *)
Lemma kozeny_carman_large_porosity :
  kozeny_carman 1 (Qc_of_Z (2 ^ 600)) = NaN.
Proof.
  apply (bool_decide_eq_true_1 (kozeny_carman 1 (Qc_of_Z (2 ^ 600)) = NaN)).
  by vm_compute.
Qed.

(** ** The sample lattice of the generator *)

Lemma ceil_sqrt_least (k m : nat) : (ceil_sqrt k ≤ m ↔ k ≤ m * m)%nat.
Proof.
  unfold ceil_sqrt. pose proof (Nat.sqrt_specif k) as [Hlo Hhi].
  destruct (decide (Nat.sqrt k * Nat.sqrt k = k)%nat) as [Heq|Hne]; split; intros H; nia.
Qed.

Lemma ceil_sqrt_square (k : nat) :
  (ceil_sqrt k * ceil_sqrt k = k ↔ ∃ r, k = r * r)%nat.
Proof.
  split; [by eexists|]. intros [r ->]. unfold ceil_sqrt.
  rewrite Nat.sqrt_square. by rewrite decide_True.
Qed.

Lemma length_arange_1_sqrt (k : nat) : length (arange_1_sqrt k) = ceil_sqrt k.
Proof. unfold arange_1_sqrt. by rewrite length_fmap, length_seq. Qed.

Lemma pair_up_concat (rows : list (list float)) :
  Forall (λ r, length r = 2%nat) rows → pair_up (concat rows) = Ok rows.
Proof.
  induction 1 as [|r rows Hr _ IH]; [done|].
  destruct r as [|x [|y [|]]]; try done. simpl. by rewrite IH.
Qed.

(** The lattice comes out as the points [(s_i, s_j)], first index slowest. *)
Definition lattice (s : list float) : list (list float) :=
  a ← s; b ← s; [[a; b]].

Lemma get3_meshgrid_0 (s : list float) (i j : nat) (a b : float) :
  s !! i = Some a → s !! j = Some b → get3 (meshgrid s s) 0 j i = a.
Proof.
  intros Hi Hj. unfold get3, meshgrid. simpl.
  rewrite list_lookup_fmap, Hj. simpl. by rewrite Hi.
Qed.

Lemma get3_meshgrid_1 (s : list float) (i j : nat) (a b : float) :
  s !! i = Some a → s !! j = Some b → get3 (meshgrid s s) 1 j i = b.
Proof.
  intros Hi Hj. unfold get3, meshgrid. simpl.
  rewrite list_lookup_fmap, Hj. simpl. by rewrite list_lookup_fmap, Hi.
Qed.

Lemma fmap_seq_lookup {A B} (l : list A) (g : nat → B) (h : A → B) :
  (∀ i a, l !! i = Some a → g i = h a) →
  g <$> seq 0 (length l) = h <$> l.
Proof.
  intros H. apply list_eq. intros i. rewrite !list_lookup_fmap.
  destruct (l !! i) as [a|] eqn:Hi; simpl.
  - rewrite lookup_seq_lt by (by eapply lookup_lt_Some). simpl. f_equal. eauto.
  - rewrite lookup_seq_ge; [done|]. by apply lookup_ge_None.
Qed.

Lemma row_bind (a : float) (t : list float) :
  (λ b, [a; b]) <$> t = b ← t; [[a; b]].
Proof.
  induction t as [|b t IH]; [done|]. by rewrite fmap_cons, bind_cons, IH.
Qed.

Lemma concat_rows_bind (s t : list float) :
  concat ((λ a, (λ b, [a; b]) <$> t) <$> s) = a ← s; b ← t; [[a; b]].
Proof.
  induction s as [|a s IH]; [done|].
  by rewrite fmap_cons, concat_cons, bind_cons, IH, row_bind.
Qed.

Lemma transpose3_meshgrid (s : list float) :
  concat (transpose3 2 (length s) (length s) (meshgrid s s)) = lattice s.
Proof.
  unfold transpose3, lattice. rewrite <- concat_rows_bind. f_equal.
  apply fmap_seq_lookup. intros i a Hi.
  apply fmap_seq_lookup. intros j b Hj. simpl.
  by rewrite (get3_meshgrid_0 s i j a b), (get3_meshgrid_1 s i j a b).
Qed.

Lemma Forall_lattice (s : list float) : Forall (λ r, length r = 2%nat) (lattice s).
Proof.
  unfold lattice. apply Forall_forall. intros r Hr.
  apply list_elem_of_bind in Hr as (a & Hr & _).
  apply list_elem_of_bind in Hr as (b & Hr & _).
  apply list_elem_of_singleton in Hr as ->. done.
Qed.

Lemma length_lattice (s : list float) :
  length (lattice s) = (length s * length s)%nat.
Proof.
  unfold lattice. rewrite <- concat_rows_bind. generalize s at 1 4. intros t.
  induction s as [|a s IH]; [done|].
  rewrite fmap_cons, concat_cons, length_app, IH, length_fmap. done.
Qed.

Lemma reshape_lattice (s : list float) :
  reshape_m1_2 (transpose3 2 (length s) (length s) (meshgrid s s)) = Ok (lattice s).
Proof.
  unfold reshape_m1_2. rewrite transpose3_meshgrid.
  apply pair_up_concat, Forall_lattice.
Qed.

(** ** The permeability generator *)

Section generator_properties.
Context {RandomState GaussianProcessRegressor : Type}.
Context (seeded : Z → RandomState).
Context (rand : RandomState → nat → list float * RandomState).
Context (gp_fit : Lab10.RBF → list (list float) → list float
                  → res GaussianProcessRegressor).
Context (gp_sample_y : GaussianProcessRegressor → list (list float) → nat
                       → res (list (list float))).

Local Abbreviation generate_perm :=
  (Lab10.generate_perm RandomState seeded rand GaussianProcessRegressor
     gp_fit gp_sample_y).

(** What the generator does after seeding, as one equation: the lattice is
    built from the number of cells alone. *)
Lemma generate_perm_unfold st fresh sd params kwargs :
  generate_perm st fresh sd params kwargs =
    (st ← Lab10.np_random_seed RandomState seeded fresh (kwargs_get kwargs "seed" KNone);
     let xy := lattice (arange_1_sqrt (num_cells sd)) in
     let '(y_train, st) := rand st (length xy) in
     gp ← gp_fit {| Lab10.length_scale := params |} xy y_train;
     samples ← gp_sample_y gp xy 1;
     perm_ref ← as_float (kwargs_get kwargs "perm_ref" (KInt 1));
     Ok (kozeny_carman perm_ref <$> (Qcabs <$> concat samples), st)).
Proof.
  unfold Lab10.generate_perm. by rewrite reshape_lattice.
Qed.

(** With an integer seed among the keyword arguments the result depends
    neither on the state of the process-wide generator before the call nor
    on the operating system's entropy. *)
Lemma generate_perm_seeded st1 st2 fresh1 fresh2 sd params kwargs (s : Z) :
  kwargs !! "seed" = Some (KInt s) →
  generate_perm st1 fresh1 sd params kwargs
  = generate_perm st2 fresh2 sd params kwargs.
Proof.
  intros Hs. rewrite !generate_perm_unfold.
  unfold kwargs_get. rewrite Hs. done.
Qed.

(** C3.  The grid enters the generator through its number of cells only,
    and, provided [sample_y] returns one row of [n_samples] values per query
    point, the returned array has one entry per point of the square lattice
    of side [ceil (sqrt num_cells)]: its length is the square of that side,
    which is the number of cells exactly when that number is a perfect
    square. *)
Theorem generate_perm_lattice_size st fresh sd params kwargs :
  (∀ gp X ns Y, gp_sample_y gp X ns = Ok Y →
     length Y = length X ∧ Forall (λ r, length r = ns) Y) →
  (∀ sd', num_cells sd' = num_cells sd →
     generate_perm st fresh sd' params kwargs
     = generate_perm st fresh sd params kwargs)
  ∧ (∀ perm st',
       generate_perm st fresh sd params kwargs = Ok (perm, st') →
       length perm = (ceil_sqrt (num_cells sd) * ceil_sqrt (num_cells sd))%nat
       ∧ (length perm = num_cells sd ↔ ∃ r, num_cells sd = (r * r)%nat)).
Proof.
  intros Hshape. split.
  - intros sd' Hsd. rewrite !generate_perm_unfold. by rewrite Hsd.
  - intros perm st' H. rewrite generate_perm_unfold in H.
    apply bind_Ok in H as (st0 & _ & H). cbv zeta in H.
    destruct (rand st0 _) as [y_train st1].
    apply bind_Ok in H as (gp & _ & H).
    apply bind_Ok in H as (samples & Hs & H).
    apply bind_Ok in H as (perm_ref & _ & H).
    injection H as <- <-.
    apply Hshape in Hs as [Hlen Hrows].
    assert (length (concat samples) = length samples) as Hc.
    { clear Hlen. induction Hrows as [|r rows Hr _ IH]; [done|].
      rewrite concat_cons, length_app, IH, Hr. done. }
    assert (length (kozeny_carman perm_ref <$> (Qcabs <$> concat samples))
            = (ceil_sqrt (num_cells sd) * ceil_sqrt (num_cells sd))%nat) as Hl.
    { by rewrite !length_fmap, Hc, Hlen, length_lattice, length_arange_1_sqrt. }
    split; [done|]. rewrite Hl. apply ceil_sqrt_square.
Qed.


End generator_properties.

(** ** Instances *)

Lemma kozeny_carman_finite_nonneg_witness :
  ∃ q, kozeny_carman 1 (Qcabs (Q2Qc (1 # 2))) = Finite q ∧ 0 ≤ q.
Proof.
  apply (kozeny_carman_finite_nonneg 1 (Q2Qc (1 # 2))).
  - by vm_compute.
  - by vm_compute.
  - exists 1%Z, (-1)%Z. split_and!; [done|lia|lia|]. apply Qc_is_canon. by vm_compute.
  - by vm_compute.
Defined.

Lemma geometry_ready_CartGrid_2 : geometry_ready (CartGrid 2).
Proof.
  split_and!.
  - eexists. split; [by vm_compute|]. by vm_compute.
  - vm_compute. lia.
  - vm_compute. repeat constructor.
  - eexists. split; [by vm_compute|]. done.
Qed.

Lemma boundary_faces_all_dirichlet_witness :
  ∃ bd fc1,
    Lab10.boundary_conditions (CartGrid 2) = Ok bd
    ∧ Lab99.boundary_conditions (CartGrid 2) = Ok bd
    ∧ face_centers (CartGrid 2) !! 1%nat = Some fc1
    ∧ NoDup (bd_faces bd)
    ∧ (∀ f, f ∈ bd_faces bd ↔ (cart_boundary 2 <$> seq 0 12) !! f = Some true)
    ∧ length (bd_labels bd) = length (bd_faces bd)
    ∧ (∀ j f, bd_faces bd !! j = Some f →
         bd_labels bd !! j = Some "dir"
         ∧ is_dir (bd_bc bd) !! f = Some true
         ∧ ∃ y, fc1 !! f = Some y ∧ bd_values bd !! f = Some (1 - y))
    ∧ (∀ f, is_dir (bd_bc bd) !! f = Some true → f ∈ bd_faces bd).
Proof.
  apply (boundary_faces_all_dirichlet (CartGrid 2) (cart_boundary 2 <$> seq 0 12)).
  - apply geometry_ready_CartGrid_2.
  - by vm_compute.
Defined.

(** A grid of five cells, of which the generator reads nothing else, and
    stand-ins for the external generator and regressor. *)
Definition five_cells : Grid :=
  {| num_cells := 5; num_faces := 0; nodes := []; face_centers := [];
     cell_centers := []; face_normals := []; cell_faces := []; tags := ∅ |}.

Definition toy_rand (st : nat) (n : nat) : list float * nat :=
  (replicate n (Q2Qc (1 # 2)), (st + n)%nat).

Definition toy_fit (k : Lab10.RBF) (X : list (list float)) (y : list float)
    : res (list float) := Ok y.

Definition toy_sample_y (gp : list float) (X : list (list float)) (ns : nat)
    : res (list (list float)) :=
  Ok ((λ i, replicate ns (default 0 (gp !! i))) <$> seq 0 (length X)).

Lemma generate_perm_lattice_size_witness :
  ∃ perm st',
    Lab10.generate_perm nat Z.to_nat toy_rand (list float) toy_fit toy_sample_y
      0%nat 0%nat five_cells 1 {[ "seed" := KInt 7 ]} = Ok (perm, st')
    ∧ length perm = 9%nat.
Proof.
  eexists _, _. split; [by vm_compute|].
  eapply (generate_perm_lattice_size Z.to_nat toy_rand toy_fit toy_sample_y
            0%nat 0%nat five_cells 1 {[ "seed" := KInt 7 ]}).
  - intros gp X ns Y [= <-]. rewrite length_fmap, length_seq. split; [done|].
    apply Forall_forall. intros r Hr. apply list_elem_of_fmap in Hr as (i & -> & _).
    by rewrite length_replicate.
  - by vm_compute.
Defined.

(** ** Finite sums *)

Lemma np_sum_app (l1 l2 : list float) : np_sum (l1 ++ l2) = np_sum l1 + np_sum l2.
Proof.
  induction l1 as [|x l1 IH]; simpl.
  - by rewrite Qcplus_0_l.
  - fold (np_sum (l1 ++ l2)). fold (np_sum l1). rewrite IH. ring.
Qed.

Lemma np_sum_cons (x : float) (l : list float) : np_sum (x :: l) = x + np_sum l.
Proof. done. Qed.

Lemma np_sum_perm (l1 l2 : list float) : l1 ≡ₚ l2 → np_sum l1 = np_sum l2.
Proof.
  induction 1 as [|x l1 l2 _ IH|x y l|l1 l2 l3 _ IH1 _ IH2];
    rewrite ?np_sum_cons; [done|by rewrite IH|ring|congruence].
Qed.

Lemma np_sum_scale (c : float) (l : list float) :
  np_sum ((λ x, c * x) <$> l) = c * np_sum l.
Proof.
  induction l as [|x l IH]; [by rewrite Qcmult_0_r|].
  rewrite fmap_cons, !np_sum_cons, IH. ring.
Qed.

Lemma np_sum_zero (l : list float) : Forall (λ x, x = 0) l → np_sum l = 0.
Proof.
  induction 1 as [|x l -> _ IH]; [done|]. rewrite np_sum_cons, IH. ring.
Qed.

Lemma np_sum_nonneg (l : list float) : Forall (λ x, 0 ≤ x) l → 0 ≤ np_sum l.
Proof.
  induction 1 as [|x l Hx _ IH]; [done|].
  rewrite np_sum_cons. by apply Qcplus_nonneg_nonneg.
Qed.

(** A sum of non-negative terms that vanishes has only zero terms. *)
Lemma np_sum_nonneg_zero (l : list float) :
  Forall (λ x, 0 ≤ x) l → np_sum l = 0 → Forall (λ x, x = 0) l.
Proof.
  induction 1 as [|x l Hx Hl IH]; [done|].
  rewrite np_sum_cons. intros Hs.
  pose proof (np_sum_nonneg l Hl) as Hn.
  assert (x = 0 ∧ np_sum l = 0) as [-> Hz].
  { clear IH Hl. revert Hs Hx Hn. generalize (np_sum l). intros s. intros. split; qc2q; lra. }
  constructor; auto.
Qed.

Lemma sum_n_S (n : nat) (g : nat → float) : sum_n (S n) g = sum_n n g + g n.
Proof.
  unfold sum_n. rewrite seq_S, fmap_app, np_sum_app. simpl. ring.
Qed.

Lemma sum_n_0 (g : nat → float) : sum_n 0 g = 0.
Proof. done. Qed.

Lemma sum_n_ext (n : nat) (g h : nat → float) :
  (∀ i, (i < n)%nat → g i = h i) → sum_n n g = sum_n n h.
Proof.
  induction n as [|n IH]; intros H; [done|].
  rewrite !sum_n_S, IH, H by (intros; try apply H; lia). done.
Qed.

Lemma sum_n_plus (n : nat) (g h : nat → float) :
  sum_n n (λ i, g i + h i) = sum_n n g + sum_n n h.
Proof.
  induction n as [|n IH]; [by rewrite !sum_n_0, Qcplus_0_l|].
  rewrite !sum_n_S, IH. ring.
Qed.

Lemma sum_n_scale (n : nat) (c : float) (g : nat → float) :
  sum_n n (λ i, c * g i) = c * sum_n n g.
Proof.
  induction n as [|n IH]; [by rewrite !sum_n_0, Qcmult_0_r|].
  rewrite !sum_n_S, IH. ring.
Qed.

Lemma sum_n_zero (n : nat) (g : nat → float) :
  (∀ i, (i < n)%nat → g i = 0) → sum_n n g = 0.
Proof.
  induction n as [|n IH]; intros H; [done|].
  rewrite sum_n_S, IH, H by (intros; try apply H; lia). ring.
Qed.

Lemma sum_n_const (n : nat) (c : float) : sum_n n (λ _, c) = Qc_of_nat n * c.
Proof.
  induction n as [|n IH].
  { unfold Qc_of_nat. change (Z.of_nat 0) with 0%Z.
    by rewrite sum_n_0, Z2Qc_inj_0, Qcmult_0_l. }
  rewrite sum_n_S, IH. unfold Qc_of_nat.
  rewrite Nat2Z.inj_succ, <- Z.add_1_r, Z2Qc_inj_add, Z2Qc_inj_1. ring.
Qed.

(** Exchange of two finite sums. *)
Lemma sum_n_exchange (n m : nat) (g : nat → nat → float) :
  sum_n n (λ i, sum_n m (λ j, g i j)) = sum_n m (λ j, sum_n n (λ i, g i j)).
Proof.
  induction n as [|n IH].
  - rewrite sum_n_0. symmetry. by apply sum_n_zero.
  - rewrite sum_n_S, IH, <- sum_n_plus. apply sum_n_ext. intros j _.
    by rewrite sum_n_S.
Qed.

(** A sum with one, or two, terms that may differ from zero. *)
Lemma sum_n_single (n a : nat) (g : nat → float) :
  (a < n)%nat → (∀ i, (i < n)%nat → i ≠ a → g i = 0) → sum_n n g = g a.
Proof.
  induction n as [|n IH]; intros Ha H; [lia|].
  rewrite sum_n_S. destruct (decide (a = n)) as [->|Hne].
  - rewrite sum_n_zero; [ring|]. intros i Hi. apply H; lia.
  - rewrite IH, (H n) by (intros; try apply H; lia). ring.
Qed.

Lemma sum_n_two (n a b : nat) (g : nat → float) :
  (a < n)%nat → (b < n)%nat → a ≠ b →
  (∀ i, (i < n)%nat → i ≠ a → i ≠ b → g i = 0) → sum_n n g = g a + g b.
Proof.
  intros Ha Hb Hne H.
  rewrite (sum_n_ext n g (λ i, (if decide (i = a) then g a else 0)
                               + (if decide (i = b) then g b else 0))).
  - rewrite sum_n_plus. f_equal.
    + rewrite (sum_n_single n a) by (intros; rewrite ?decide_False; done).
      by rewrite decide_True.
    + rewrite (sum_n_single n b) by (intros; rewrite ?decide_False; done).
      by rewrite decide_True.
  - intros i Hi. destruct (decide (i = a)) as [Ea|Na]; destruct (decide (i = b)) as [Eb|Nb].
    + congruence.
    + rewrite Ea. ring.
    + rewrite Eb. ring.
    + rewrite H by done. ring.
Qed.

(** ** Vectors and dense matrices *)

(** Entry [i] of a vector, [0] outside of it. *)
Definition vget (v : list float) (i : nat) : float := default 0 (v !! i).

Lemma vget_fmap_seq (g : nat → float) (n i : nat) :
  (i < n)%nat → vget (g <$> seq 0 n) i = g i.
Proof.
  intros Hi. unfold vget. by rewrite list_lookup_fmap, lookup_seq_lt.
Qed.

Lemma vget_ge (v : list float) (i : nat) : (length v ≤ i)%nat → vget v i = 0.
Proof. intros H. unfold vget. by rewrite lookup_ge_None_2. Qed.

Lemma vec_ext (u v : list float) :
  length u = length v → (∀ i, (i < length u)%nat → vget u i = vget v i) → u = v.
Proof.
  intros Hlen H. apply list_eq. intros i.
  destruct (decide (i < length u)%nat) as [Hi|Hi].
  - destruct (lookup_lt_is_Some_2 u i Hi) as [x Hx].
    destruct (lookup_lt_is_Some_2 v i) as [y Hy]; [lia|].
    specialize (H i Hi). unfold vget in H. rewrite Hx, Hy in H. simpl in H.
    by rewrite Hx, Hy, H.
  - rewrite !lookup_ge_None_2 by lia. done.
Qed.

Lemma fmap_seq_vget (v : list float) : (λ i, vget v i) <$> seq 0 (length v) = v.
Proof.
  apply vec_ext; [by rewrite length_fmap, length_seq|].
  intros i Hi. rewrite length_fmap, length_seq in Hi. by rewrite vget_fmap_seq.
Qed.

Lemma dot_cons (a x : float) (u v : list float) :
  dot (a :: u) (x :: v) = a * x + dot u v.
Proof. done. Qed.

Lemma dot_fmap_seq_from (g : nat → float) (v : list float) (s : nat) :
  dot (g <$> seq s (length v)) v
  = np_sum ((λ i, g (s + i)%nat * vget v i) <$> seq 0 (length v)).
Proof.
  revert s. induction v as [|x v IH]; intros s; [done|].
  cbn [length seq]. rewrite !fmap_cons, dot_cons, np_sum_cons, IH.
  rewrite Nat.add_0_r. f_equal. rewrite <- fmap_S_seq, <- list_fmap_compose.
  f_equal. apply list_fmap_ext. intros _ i _. simpl. f_equal. f_equal. lia.
Qed.

Lemma dot_fmap_seq (g : nat → float) (v : list float) (n : nat) :
  length v = n → dot (g <$> seq 0 n) v = sum_n n (λ i, g i * vget v i).
Proof. intros <-. by rewrite dot_fmap_seq_from. Qed.

Lemma mat_vec_mk (nr nc : nat) (e : nat → nat → float) (v : list float) :
  length v = nc →
  mat_vec (mk_matrix nr nc e) v
  = (λ i, sum_n nc (λ j, e i j * vget v j)) <$> seq 0 nr.
Proof.
  intros Hv. unfold mat_vec, mk_matrix. rewrite <- list_fmap_compose.
  apply list_fmap_ext. intros _ i _. simpl. by apply dot_fmap_seq.
Qed.

Lemma col_mk (nr nc : nat) (e : nat → nat → float) (j : nat) :
  (j < nc)%nat → col (mk_matrix nr nc e) j = (λ i, e i j) <$> seq 0 nr.
Proof.
  intros Hj. unfold col, mk_matrix. rewrite <- list_fmap_compose.
  apply list_fmap_ext. intros _ i _. simpl.
  by rewrite list_lookup_fmap, lookup_seq_lt.
Qed.

Lemma fmap_seq_ext {A} (g h : nat → A) (n : nat) :
  (∀ i, (i < n)%nat → g i = h i) → g <$> seq 0 n = h <$> seq 0 n.
Proof.
  intros H. apply list_fmap_ext. intros k i Hi.
  apply H. apply lookup_seq in Hi. lia.
Qed.

Lemma mk_matrix_ext (nr nc : nat) (e1 e2 : nat → nat → float) :
  (∀ i j, (i < nr)%nat → (j < nc)%nat → e1 i j = e2 i j) →
  mk_matrix nr nc e1 = mk_matrix nr nc e2.
Proof.
  intros H. unfold mk_matrix. apply fmap_seq_ext. intros i Hi.
  apply fmap_seq_ext. intros j Hj. by apply H.
Qed.

Lemma mat_mul_mk (a b c : nat) (e1 e2 : nat → nat → float) :
  mat_mul (mk_matrix a b e1) (mk_matrix b c e2) c
  = mk_matrix a c (λ i j, sum_n b (λ l, e1 i l * e2 l j)).
Proof.
  unfold mat_mul. remember (mk_matrix b c e2) as M2 eqn:HM2.
  unfold mk_matrix. rewrite <- list_fmap_compose.
  apply fmap_seq_ext. intros i Hi. simpl.
  apply fmap_seq_ext. intros j Hj. subst M2.
  rewrite col_mk by done. rewrite dot_fmap_seq by (by rewrite length_fmap, length_seq).
  apply sum_n_ext. intros l Hl. by rewrite vget_fmap_seq.
Qed.

Lemma length_mk_matrix (nr nc : nat) (e : nat → nat → float) :
  length (mk_matrix nr nc e) = nr.
Proof. unfold mk_matrix. by rewrite length_fmap, length_seq. Qed.

(** ** The direct solver *)

(** [x] satisfies the equation [e]; [x] satisfies its homogeneous part. *)
Definition sat (x : list float) (e : eqn) : Prop := dot e.1 x = e.2.
Definition hom (x : list float) (e : eqn) : Prop := dot e.1 x = 0.

Lemma find_pivot_Some (sys : list eqn) (p : eqn) (rest : list eqn) :
  find_pivot sys = Some (p, rest) → hd 0 p.1 ≠ 0 ∧ sys ≡ₚ p :: rest.
Proof.
  revert p rest. induction sys as [|e sys IH]; intros p rest; simpl; [done|].
  destruct (decide (hd 0 e.1 = 0)) as [Hz|Hnz].
  - destruct (find_pivot sys) as [[p' rest']|]; simpl; [|done].
    intros [= <- <-]. destruct (IH p' rest' eq_refl) as [Hp Hperm].
    split; [done|]. rewrite Hperm. apply Permutation_swap.
  - intros [= <- <-]. done.
Qed.

Lemma find_pivot_None (sys : list eqn) :
  find_pivot sys = None → Forall (λ e, hd 0 e.1 = 0) sys.
Proof.
  induction sys as [|e sys IH]; simpl; [done|].
  destruct (decide (hd 0 e.1 = 0)) as [Hz|Hnz]; [|done].
  destruct (find_pivot sys) as [[p' rest']|]; simpl; [done|]. auto.
Qed.

Lemma hd_tail (l : list float) (n : nat) : length l = S n → l = hd 0 l :: tail l.
Proof. by destruct l. Qed.

Lemma length_tail_S (l : list float) (n : nat) :
  length l = S n → length (tail l) = n.
Proof. destruct l; simpl; lia. Qed.

Lemma dot_eliminate (m : float) (s r xs : list float) :
  length s = length r →
  dot (zip_with (λ x y, x - m * y) s r) xs = dot s xs - m * dot r xs.
Proof.
  revert r xs. induction s as [|a s IH]; intros [|b r] xs Hlen; try done.
  - unfold dot. simpl. ring.
  - destruct xs as [|x xs].
    + unfold dot. simpl. ring.
    + simpl zip_with. rewrite !dot_cons, IH by (simpl in Hlen; lia). ring.
Qed.

Lemma dot_minus_r (u x y : list float) :
  length x = length y →
  dot u (zip_with Qcminus x y) = dot u x - dot u y.
Proof.
  revert x y. induction u as [|a u IH]; intros [|b x] [|c y] Hlen; try done;
    try (unfold dot; simpl; ring).
  simpl zip_with. rewrite !dot_cons, IH by (simpl in Hlen; lia). ring.
Qed.

Lemma dot_zeros (u : list float) (n : nat) : dot u (replicate n 0) = 0.
Proof.
  revert n. induction u as [|a u IH]; intros [|n]; try done.
  simpl replicate. rewrite dot_cons, IH. ring.
Qed.

Lemma length_eliminate (p e : eqn) (n : nat) :
  length p.1 = S n → length e.1 = S n → length (eliminate p e).1 = n.
Proof.
  intros Hp He. unfold eliminate. simpl.
  rewrite length_zip_with, (length_tail_S _ _ Hp), (length_tail_S _ _ He). lia.
Qed.

(** Eliminating with the pivot equation: a solution of the reduced system
    extends to a solution of the equation. *)
Lemma eliminate_back (p e : eqn) (n : nat) (x0 : float) (xs : list float) :
  length p.1 = S n → length e.1 = S n → hd 0 p.1 ≠ 0 →
  dot p.1 (x0 :: xs) = p.2 →
  dot (eliminate p e).1 xs = (eliminate p e).2 →
  dot e.1 (x0 :: xs) = e.2.
Proof.
  intros Hp He Ha Hsat Hred.
  rewrite (hd_tail _ _ Hp), dot_cons in Hsat.
  rewrite (hd_tail _ _ He), dot_cons.
  unfold eliminate in Hred. simpl in Hred.
  rewrite dot_eliminate in Hred
    by (by rewrite (length_tail_S _ _ Hp), (length_tail_S _ _ He)).
  set (a := hd 0 p.1) in *. set (c := hd 0 e.1) in *.
  set (dr := dot (tail p.1) xs) in *. set (ds := dot (tail e.1) xs) in *.
  assert (c * x0 + ds = c / a * (a * x0 + dr) + (ds - c / a * dr)) as ->
    by (field; done).
  rewrite Hsat, Hred. ring.
Qed.

Lemma solve_rec_sound (n : nat) (sys : list eqn) (xs : list float) :
  Forall (λ e, length e.1 = n) sys → length sys = n →
  solve_rec n sys = Some xs → length xs = n ∧ Forall (sat xs) sys.
Proof.
  revert sys xs. induction n as [|n IH]; intros sys xs Hwf Hlen; simpl.
  - intros [= <-]. split; [done|]. by destruct sys.
  - destruct (find_pivot sys) as [[p rest]|] eqn:Hpiv; simpl; [|done].
    destruct (find_pivot_Some _ _ _ Hpiv) as [Ha Hperm].
    rewrite Hperm in Hwf. apply Forall_cons in Hwf as [Hp Hrest].
    assert (length rest = n) as Hrl.
    { apply Permutation_length in Hperm. simpl in Hperm. lia. }
    destruct (solve_rec n (eliminate p <$> rest)) as [ys|] eqn:Hsol; simpl; [|done].
    intros [= <-].
    destruct (IH (eliminate p <$> rest) ys) as [Hyl Hys]; [| |done|].
    { apply Forall_fmap. eapply Forall_impl; [exact Hrest|].
      intros e He. simpl. by apply length_eliminate. }
    { by rewrite length_fmap. }
    split; [simpl; by rewrite Hyl|]. rewrite Hperm.
    assert (sat ((p.2 - dot (tail p.1) ys) / hd 0 p.1 :: ys) p) as Hsp.
    { unfold sat. rewrite (hd_tail _ _ Hp) at 1. rewrite dot_cons. field. done. }
    constructor; [done|].
    rewrite Forall_fmap in Hys. rewrite Forall_forall in Hys, Hrest.
    apply Forall_forall. intros e He.
    eapply (eliminate_back p e n); eauto. apply (Hys e He).
Qed.

Lemma solve_rec_complete (n : nat) (sys : list eqn) :
  Forall (λ e, length e.1 = n) sys → length sys = n →
  (∀ y, length y = n → Forall (hom y) sys → y = replicate n 0) →
  is_Some (solve_rec n sys).
Proof.
  revert sys. induction n as [|n IH]; intros sys Hwf Hlen Hinj; simpl; [done|].
  destruct (find_pivot sys) as [[p rest]|] eqn:Hpiv; simpl.
  - destruct (find_pivot_Some _ _ _ Hpiv) as [Ha Hperm].
    pose proof Hwf as Hwf'. rewrite Hperm in Hwf'.
    apply Forall_cons in Hwf' as [Hp Hrest].
    assert (length rest = n) as Hrl.
    { apply Permutation_length in Hperm. simpl in Hperm. lia. }
    destruct (IH (eliminate p <$> rest)) as [ys Hys].
    { apply Forall_fmap. eapply Forall_impl; [exact Hrest|].
      intros e He. simpl. by apply length_eliminate. }
    { by rewrite length_fmap. }
    { intros ys Hyl Hhom.
      set (y0 := - dot (tail p.1) ys / hd 0 p.1).
      assert (y0 :: ys = replicate (S n) 0) as Hz; [|by injection Hz].
      apply Hinj; [simpl; by rewrite Hyl|]. rewrite Hperm.
      assert (dot p.1 (y0 :: ys) = 0) as Hp0.
      { rewrite (hd_tail _ _ Hp), dot_cons. unfold y0. field. done. }
      constructor; [done|].
      rewrite Forall_fmap in Hhom. rewrite Forall_forall in Hhom, Hrest.
      apply Forall_forall. intros e He. unfold hom.
      pose proof (Hhom e He) as Hred. unfold hom, compose in Hred.
      unfold eliminate in Hred. simpl in Hred.
      rewrite dot_eliminate in Hred
        by (by rewrite (length_tail_S _ _ Hp), (length_tail_S _ _ (Hrest e He))).
      rewrite (hd_tail _ _ (Hrest e He)), dot_cons.
      rewrite (hd_tail _ _ Hp), dot_cons in Hp0.
      clearbody y0.
      set (a := hd 0 p.1) in *. set (c := hd 0 e.1) in *.
      set (dr := dot (tail p.1) ys) in *. set (ds := dot (tail e.1) ys) in *.
      assert (c * y0 + ds = c / a * (a * y0 + dr) + (ds - c / a * dr)) as ->
        by (field; done).
      rewrite Hp0, Hred. ring. }
    rewrite Hys. simpl. done.
  - exfalso. apply find_pivot_None in Hpiv.
    assert (1 :: replicate n 0 = replicate (S n) 0) as Hz; [|by injection Hz].
    apply Hinj; [simpl; by rewrite length_replicate|].
    rewrite Forall_forall in Hpiv, Hwf. apply Forall_forall. intros e He.
    unfold hom. rewrite (hd_tail _ _ (Hwf e He)), dot_cons, (Hpiv e He), dot_zeros. ring.
Qed.

(** The solver returns the solution, when the matrix is non-singular. *)
Lemma solve_rec_unique (n : nat) (sys : list eqn) (x : list float) :
  Forall (λ e, length e.1 = n) sys → length sys = n →
  (∀ y, length y = n → Forall (hom y) sys → y = replicate n 0) →
  length x = n → Forall (sat x) sys →
  solve_rec n sys = Some x.
Proof.
  intros Hwf Hlen Hinj Hxl Hx.
  destruct (solve_rec_complete n sys Hwf Hlen Hinj) as [xs Hxs].
  rewrite Hxs. f_equal.
  destruct (solve_rec_sound n sys xs Hwf Hlen Hxs) as [Hxsl Hsat].
  assert (zip_with Qcminus xs x = replicate n 0) as Hd.
  { apply Hinj; [rewrite length_zip_with; lia|].
    rewrite Forall_forall in Hsat, Hx. apply Forall_forall. intros e He.
    unfold hom. rewrite dot_minus_r by lia.
    rewrite (Hsat e He), (Hx e He). ring. }
  apply vec_ext; [lia|]. intros i Hi.
  assert (vget (zip_with Qcminus xs x) i = 0) as Hdi.
  { rewrite Hd. unfold vget. rewrite lookup_replicate_2 by lia. done. }
  unfold vget in *. rewrite lookup_zip_with in Hdi.
  destruct (lookup_lt_is_Some_2 xs i Hi) as [a Ha].
  destruct (lookup_lt_is_Some_2 x i) as [b Hb]; [lia|].
  rewrite Ha, Hb in *. simpl in *.
  rewrite <- (Qcplus_0_l b), <- Hdi. ring.
Qed.

(** ** The flow solve without its dictionaries *)

Lemma parameters_lookup (a b c : param) :
  let ps : gmap string param :=
    {[ "second_order_tensor" := a; "bc" := b; "bc_values" := c ]} in
  ps !! "second_order_tensor" = Some a ∧ ps !! "bc" = Some b
  ∧ ps !! "bc_values" = Some c.
Proof. by vm_compute. Qed.

Lemma matrices_lookup (x y : sparse) :
  let md : gmap string sparse := <[ "bound_flux" := x ]> (<[ "flux" := y ]> ∅) in
  md !! "flux" = Some y ∧ md !! "bound_flux" = Some x.
Proof. by vm_compute. Qed.

Lemma tpfa_discretize_eq (key : string) (sd : Grid) (sot bc_val : list float)
    (bc : BoundaryCondition) :
  tpfa_discretize key sd
    (initialize_default_data sd key
       {[ "second_order_tensor" := PTensor sot; "bc" := PBc bc;
          "bc_values" := PValues bc_val ]})
  = Ok {| parameters :=
            {[ key := {[ "second_order_tensor" := PTensor sot; "bc" := PBc bc;
                         "bc_values" := PValues bc_val ]} ]};
          discretization_matrices :=
            {[ key := <[ "bound_flux" := tpfa_bound_flux sd sot bc ]>
                        (<[ "flux" := tpfa_flux sd sot ]> ∅) ]} |}.
Proof.
  unfold tpfa_discretize, initialize_default_data, lookup_key.
  cbn [parameters discretization_matrices].
  rewrite !lookup_singleton_eq. cbn [from_option mbind res_bind].
  destruct (parameters_lookup (PTensor sot) (PBc bc) (PValues bc_val)) as (-> & -> & _).
  cbn [from_option mbind res_bind]. by rewrite insert_singleton_eq.
Qed.

Lemma tpfa_assemble_eq (key : string) (sd : Grid) (bc_val : list float)
    (ps0 : gmap string param) (flux bound_flux : sparse) :
  ps0 !! "bc_values" = Some (PValues bc_val) →
  tpfa_assemble_matrix_rhs key sd
    {| parameters := {[ key := ps0 ]};
       discretization_matrices :=
         {[ key := <[ "bound_flux" := bound_flux ]> (<[ "flux" := flux ]> ∅) ]} |}
  = (A ← sp_matmul (tpfa_div sd) flux;
     g ← sp_matvec bound_flux bc_val;
     r ← sp_matvec (tpfa_div sd) g;
     Ok (A, vec_opp r)).
Proof.
  intros Hv. unfold tpfa_assemble_matrix_rhs, lookup_key.
  cbn [parameters discretization_matrices].
  rewrite !lookup_singleton_eq. cbn [from_option mbind res_bind].
  rewrite Hv. cbn [from_option mbind res_bind].
  destruct (matrices_lookup bound_flux flux) as (-> & ->).
  cbn [from_option mbind res_bind]. done.
Qed.

Lemma bind_assoc {A B C} (m : res A) (f : A → res B) (g : B → res C) :
  (m ≫= f) ≫= g = m ≫= (λ a, f a ≫= g).
Proof. by destruct m. Qed.

Lemma flow_solve_eq (key : string) (sd : Grid) (sot : list float) (bd : BoundaryData) :
  flow_solve key sd sot bd =
    (let flux := tpfa_flux sd sot in
     let bound_flux := tpfa_bound_flux sd sot (bd_bc bd) in
     A ← sp_matmul (tpfa_div sd) flux;
     g ← sp_matvec bound_flux (bd_values bd);
     r ← sp_matvec (tpfa_div sd) g;
     cell_p ← spsolve A (vec_opp r);
     fp ← sp_matvec flux cell_p;
     bg ← sp_matvec bound_flux (bd_values bd);
     q ← np_add fp bg;
     idx ← take_mask (bd_faces bd) (bd_out_flow bd);
     qs ← take_idx q idx;
     Ok (cell_p, np_sum qs)).
Proof.
  unfold flow_solve. rewrite tpfa_discretize_eq. cbn [mbind res_bind].
  rewrite tpfa_assemble_eq with (bc_val := bd_values bd)
    by apply (parameters_lookup (PTensor sot) (PBc (bd_bc bd)) (PValues (bd_values bd))).
  cbv zeta. rewrite !bind_assoc.
  destruct (sp_matmul _ _) as [A|]; [|done]. cbn [mbind res_bind].
  rewrite !bind_assoc.
  destruct (sp_matvec _ (bd_values bd)) as [g|] eqn:Hg; [|done]. cbn [mbind res_bind].
  rewrite !bind_assoc.
  destruct (sp_matvec (tpfa_div sd) g) as [r|]; [|done]. cbn [mbind res_bind].
  destruct (spsolve A (vec_opp r)) as [cell_p|]; [|done]. cbn [mbind res_bind].
  unfold lookup_key. cbn [discretization_matrices].
  rewrite lookup_singleton_eq. cbn [from_option mbind res_bind].
  destruct (matrices_lookup (tpfa_bound_flux sd sot (bd_bc bd)) (tpfa_flux sd sot))
    as (-> & ->).
  cbn [from_option mbind res_bind]. by rewrite Hg.
Qed.

(** ** Scaling the conductivity *)

Definition scale_vec (c : float) (v : list float) : list float := (λ x, c * x) <$> v.
Definition scale_mat (c : float) (M : matrix) : matrix := scale_vec c <$> M.
Definition sp_scale (c : float) (M : sparse) : sparse :=
  Sparse (sp_rows M) (sp_cols M) (scale_mat c (sp_dense M)).
Definition scale_eqn (c : float) (e : eqn) : eqn := (scale_vec c e.1, c * e.2).

(** [c * perm] on the conductivity argument. *)
Definition scale_conductivity (c : float) (perm : conductivity) : conductivity :=
  match perm with
  | Scalar k => Scalar (c * k)
  | PerCell ks => PerCell (scale_vec c ks)
  end.

Lemma dot_scale_l (c : float) (u v : list float) :
  dot (scale_vec c u) v = c * dot u v.
Proof.
  revert v. induction u as [|a u IH]; intros [|x v]; try (unfold dot; simpl; ring).
  unfold scale_vec in *. rewrite fmap_cons, !dot_cons, IH. ring.
Qed.

Lemma dot_scale_r (c : float) (u v : list float) :
  dot u (scale_vec c v) = c * dot u v.
Proof.
  revert v. induction u as [|a u IH]; intros [|x v]; try (unfold dot; simpl; ring).
  unfold scale_vec in *. rewrite fmap_cons, !dot_cons, IH. ring.
Qed.

Lemma mat_vec_scale_l (c : float) (M : matrix) (v : list float) :
  mat_vec (scale_mat c M) v = scale_vec c (mat_vec M v).
Proof.
  unfold mat_vec, scale_mat, scale_vec at 2. rewrite <- !list_fmap_compose.
  apply list_fmap_ext. intros i row _. simpl. apply dot_scale_l.
Qed.

Lemma mat_vec_scale_r (c : float) (M : matrix) (v : list float) :
  mat_vec M (scale_vec c v) = scale_vec c (mat_vec M v).
Proof.
  unfold mat_vec, scale_vec at 2. rewrite <- !list_fmap_compose.
  apply list_fmap_ext. intros i row _. simpl. apply dot_scale_r.
Qed.

Lemma col_scale (c : float) (M : matrix) (j : nat) :
  col (scale_mat c M) j = scale_vec c (col M j).
Proof.
  unfold col, scale_mat, scale_vec at 2. rewrite <- !list_fmap_compose.
  apply list_fmap_ext. intros i row _. simpl. unfold scale_vec.
  rewrite list_lookup_fmap. destruct (row !! j); simpl; [done|ring].
Qed.

Lemma mat_mul_scale_r (c : float) (M1 M2 : matrix) (nc : nat) :
  mat_mul M1 (scale_mat c M2) nc = scale_mat c (mat_mul M1 M2 nc).
Proof.
  unfold mat_mul. unfold scale_mat at 2. rewrite <- list_fmap_compose.
  apply list_fmap_ext. intros i row _. simpl.
  transitivity ((λ j, c * dot row (col M2 j)) <$> seq 0 nc).
  { apply list_fmap_ext. intros k j _. simpl. by rewrite col_scale, dot_scale_r. }
  unfold scale_vec. by rewrite <- list_fmap_compose.
Qed.

Lemma length_scale_vec (c : float) (v : list float) : length (scale_vec c v) = length v.
Proof. apply length_fmap. Qed.

Lemma hd_scale_vec (c : float) (v : list float) : hd 0 (scale_vec c v) = c * hd 0 v.
Proof. destruct v; simpl; [ring|done]. Qed.

Lemma tail_scale_vec (c : float) (v : list float) : tail (scale_vec c v) = scale_vec c (tail v).
Proof. by destruct v. Qed.

Lemma find_pivot_scale (c : float) (sys : list eqn) :
  c ≠ 0 →
  find_pivot (scale_eqn c <$> sys)
  = (λ pr : eqn * list eqn, (scale_eqn c pr.1, scale_eqn c <$> pr.2))
      <$> find_pivot sys.
Proof.
  intros Hc. induction sys as [|e sys IH]; [done|].
  rewrite fmap_cons. simpl find_pivot. rewrite hd_scale_vec.
  destruct (decide (hd 0 e.1 = 0)) as [Hz|Hnz].
  - rewrite decide_True by (rewrite Hz; ring).
    rewrite IH. by destruct (find_pivot sys) as [[p rest]|].
  - rewrite decide_False; [done|]. intros H.
    apply Qcmult_integral in H as [?|?]; done.
Qed.

Lemma eliminate_scale (c : float) (p e : eqn) :
  c ≠ 0 → hd 0 p.1 ≠ 0 →
  eliminate (scale_eqn c p) (scale_eqn c e) = scale_eqn c (eliminate p e).
Proof.
  intros Hc Ha. unfold eliminate, scale_eqn. cbn [fst snd].
  rewrite !hd_scale_vec, !tail_scale_vec.
  assert (c * hd 0 e.1 / (c * hd 0 p.1) = hd 0 e.1 / hd 0 p.1) as -> by (by field).
  f_equal; [|ring].
  generalize (hd 0 e.1 / hd 0 p.1). intros m.
  generalize (tail p.1). generalize (tail e.1). clear.
  induction l as [|x l IH]; intros [|y l']; try done.
  unfold scale_vec in *. simpl. rewrite <- IH. f_equal. ring.
Qed.

(** Multiplying every equation by a non-zero factor changes neither the
    pivots that are found nor the solution that is returned. *)
Lemma solve_rec_scale (c : float) (n : nat) (sys : list eqn) :
  c ≠ 0 → solve_rec n (scale_eqn c <$> sys) = solve_rec n sys.
Proof.
  intros Hc. revert sys. induction n as [|n IH]; intros sys; [done|].
  simpl. rewrite find_pivot_scale by done.
  destruct (find_pivot sys) as [[p rest]|] eqn:Hpiv; [|done].
  destruct (find_pivot_Some _ _ _ Hpiv) as [Ha _]. simpl.
  rewrite <- list_fmap_compose.
  rewrite (list_fmap_ext _ (scale_eqn c ∘ eliminate p) rest)
    by (intros; simpl; by apply eliminate_scale).
  rewrite list_fmap_compose, IH.
  destruct (solve_rec n (eliminate p <$> rest)) as [xs|]; [|done]. simpl.
  rewrite hd_scale_vec, tail_scale_vec, dot_scale_l. f_equal. f_equal. by field.
Qed.

Lemma half_trans_scale (c : float) (sd : Grid) (k : list float) (f c' : nat) :
  half_trans sd (scale_vec c k) f c' = c * half_trans sd k f c'.
Proof.
  unfold half_trans, scale_vec. rewrite list_lookup_fmap.
  destruct (k !! c'); simpl; unfold Qcdiv; ring.
Qed.

Lemma Qcinv_involutive (c : Qc) : / / c = c.
Proof. qc2q. apply Qinv_involutive. Qed.

Lemma face_trans_scale (c : float) (sd : Grid) (k : list float) (f : nat) :
  c ≠ 0 → face_trans sd (scale_vec c k) f = c * face_trans sd k f.
Proof.
  intros Hc. unfold face_trans.
  set (cells := face_cells sd f).
  assert (half_trans sd (scale_vec c k) f <$> cells
          = scale_vec c (half_trans sd k f <$> cells)) as ->.
  { unfold scale_vec at 2. rewrite <- list_fmap_compose.
    apply list_fmap_ext. intros _ c' _. simpl. apply half_trans_scale. }
  set (hs := half_trans sd k f <$> cells).
  destruct (decide (0 ∈ hs)) as [Hin|Hnin].
  - rewrite decide_True; [ring|]. unfold scale_vec.
    apply list_elem_of_fmap. exists 0. split; [ring|done].
  - rewrite decide_False.
    + assert (np_sum ((λ h, 1 / h) <$> scale_vec c hs)
              = / c * np_sum ((λ h, 1 / h) <$> hs)) as ->.
      { rewrite <- np_sum_scale. unfold scale_vec. rewrite <- !list_fmap_compose.
        f_equal. apply list_fmap_ext. intros _ h _. simpl.
        unfold Qcdiv. rewrite Qcinv_mult_distr. ring. }
      unfold Qcdiv. rewrite Qcinv_mult_distr, Qcinv_involutive. ring.
    + unfold scale_vec. intros Hin. apply list_elem_of_fmap in Hin as (h & Hh & Hin).
      symmetry in Hh. apply Qcmult_integral in Hh as [? | ->]; done.
Qed.

Lemma tpfa_flux_scale (c : float) (sd : Grid) (k : list float) :
  c ≠ 0 → tpfa_flux sd (scale_vec c k) = sp_scale c (tpfa_flux sd k).
Proof.
  intros Hc. unfold tpfa_flux, sp_scale, sp_make. cbn [sp_rows sp_cols sp_dense].
  f_equal. unfold scale_mat, scale_vec, mk_matrix. rewrite <- list_fmap_compose.
  apply fmap_seq_ext. intros f Hf. simpl. rewrite <- list_fmap_compose.
  apply fmap_seq_ext. intros c' Hc'. simpl.
  change ((λ x, c * x) <$> k) with (scale_vec c k).
  rewrite (face_trans_scale c sd k f Hc). ring.
Qed.

Lemma tpfa_bound_flux_scale (c : float) (sd : Grid) (k : list float)
    (bc : BoundaryCondition) :
  c ≠ 0 →
  tpfa_bound_flux sd (scale_vec c k) bc = sp_scale c (tpfa_bound_flux sd k bc).
Proof.
  intros Hc. unfold tpfa_bound_flux, sp_scale, sp_make. cbn [sp_rows sp_cols sp_dense].
  f_equal. unfold scale_mat, scale_vec, mk_matrix. rewrite <- list_fmap_compose.
  apply fmap_seq_ext. intros f Hf. simpl. rewrite <- list_fmap_compose.
  apply fmap_seq_ext. intros f' Hf'. simpl.
  change ((λ x, c * x) <$> k) with (scale_vec c k).
  rewrite (face_trans_scale c sd k f Hc). case_decide; ring.
Qed.

Global Instance res_fmap : FMap res := λ A B f m,
  match m with
  | Ok a => Ok (f a)
  | Raise e => Raise e
  end.

Lemma sp_matmul_scale_r (c : float) (M1 M2 : sparse) :
  sp_matmul M1 (sp_scale c M2) = sp_scale c <$> sp_matmul M1 M2.
Proof.
  unfold sp_matmul, sp_scale. cbn [sp_rows sp_cols sp_dense].
  case_decide; [|done]. simpl. by rewrite mat_mul_scale_r.
Qed.

Lemma sp_matvec_scale_l (c : float) (M : sparse) (v : list float) :
  sp_matvec (sp_scale c M) v = scale_vec c <$> sp_matvec M v.
Proof.
  unfold sp_matvec, sp_scale. cbn [sp_rows sp_cols sp_dense].
  case_decide; [|done]. simpl. by rewrite mat_vec_scale_l.
Qed.

Lemma sp_matvec_scale_r (c : float) (M : sparse) (v : list float) :
  sp_matvec M (scale_vec c v) = scale_vec c <$> sp_matvec M v.
Proof.
  unfold sp_matvec. rewrite length_scale_vec.
  case_decide; [|done]. simpl. by rewrite mat_vec_scale_r.
Qed.

Lemma zip_scale (c : float) (M : matrix) (b : list float) :
  zip (scale_mat c M) (scale_vec c b) = scale_eqn c <$> zip M b.
Proof.
  revert b. induction M as [|row M IH]; intros [|x b]; try done.
  unfold scale_mat, scale_vec in *. simpl. f_equal. apply IH.
Qed.

Lemma spsolve_scale (c : float) (A : sparse) (b : list float) :
  c ≠ 0 → spsolve (sp_scale c A) (scale_vec c b) = spsolve A b.
Proof.
  intros Hc. unfold spsolve, sp_scale. cbn [sp_rows sp_cols sp_dense].
  rewrite length_scale_vec. case_decide; [|done].
  by rewrite zip_scale, solve_rec_scale.
Qed.

Lemma vec_opp_scale (c : float) (v : list float) :
  vec_opp (scale_vec c v) = scale_vec c (vec_opp v).
Proof.
  unfold vec_opp, scale_vec. rewrite <- !list_fmap_compose.
  apply list_fmap_ext. intros _ x _. simpl. ring.
Qed.

Lemma np_add_scale (c : float) (u v : list float) :
  np_add (scale_vec c u) (scale_vec c v) = scale_vec c <$> np_add u v.
Proof.
  unfold np_add. rewrite !length_scale_vec. case_decide; [|done]. simpl. f_equal.
  unfold vec_add, scale_vec. clear. revert v.
  induction u as [|a u IH]; intros [|b v]; try done. simpl. rewrite IH. f_equal. ring.
Qed.

Lemma take_idx_scale (c : float) (q : list float) (idx : list nat) :
  take_idx (scale_vec c q) idx = scale_vec c <$> take_idx q idx.
Proof.
  unfold take_idx. induction idx as [|i idx IH]; [done|].
  cbn [res_mapM]. rewrite IH. clear IH.
  destruct (res_mapM (getitem q) idx) as [bs|];
    unfold getitem, scale_vec; rewrite list_lookup_fmap;
    destruct (q !! i) as [x|]; reflexivity.
Qed.

Lemma flow_solve_scale (c : float) (key : string) (sd : Grid) (sot : list float)
    (bd : BoundaryData) :
  c ≠ 0 →
  flow_solve key sd (scale_vec c sot) bd
  = (λ r : list float * float, (r.1, c * r.2)) <$> flow_solve key sd sot bd.
Proof.
  intros Hc. rewrite !flow_solve_eq. cbv zeta.
  rewrite tpfa_flux_scale, tpfa_bound_flux_scale by done.
  rewrite sp_matmul_scale_r.
  destruct (sp_matmul (tpfa_div sd) (tpfa_flux sd sot)) as [A|]; [|done]. simpl.
  rewrite sp_matvec_scale_l.
  destruct (sp_matvec (tpfa_bound_flux sd sot (bd_bc bd)) (bd_values bd)) as [g|]; [|done].
  simpl. rewrite sp_matvec_scale_r.
  destruct (sp_matvec (tpfa_div sd) g) as [r|]; [|done]. simpl.
  rewrite vec_opp_scale, spsolve_scale by done.
  destruct (spsolve A (vec_opp r)) as [p|]; [|done]. simpl.
  rewrite sp_matvec_scale_l.
  destruct (sp_matvec (tpfa_flux sd sot) p) as [fp|]; [|done]. simpl.
  rewrite np_add_scale.
  destruct (np_add fp g) as [q|]; [|done]. simpl.
  destruct (take_mask (bd_faces bd) (bd_out_flow bd)) as [idx|]; [|done]. simpl.
  rewrite take_idx_scale.
  destruct (take_idx q idx) as [qs|]; [|done]. simpl.
  unfold scale_vec. by rewrite np_sum_scale.
Qed.

Lemma mul_ones_scale (c : float) (perm : conductivity) (n : nat) :
  mul_ones (scale_conductivity c perm) n = scale_vec c <$> mul_ones perm n.
Proof.
  destruct perm as [k|ks]; simpl.
  - unfold scale_vec. rewrite fmap_replicate. do 2 f_equal. ring.
  - rewrite length_scale_vec.
    assert ((λ k, k * 1) <$> scale_vec c ks = scale_vec c ((λ k, k * 1) <$> ks)) as E.
    { unfold scale_vec. rewrite <- !list_fmap_compose.
      apply list_fmap_ext. intros _ x _. simpl. ring. }
    repeat case_decide; simpl; rewrite ?E; try done.
    unfold scale_vec at 2. rewrite fmap_replicate, hd_scale_vec. do 2 f_equal. ring.
Qed.

Lemma solve_problem_scale (c : float) (sd : Grid) (perm : conductivity) :
  c ≠ 0 →
  Lab99.solve_problem sd (scale_conductivity c perm)
  = (λ r : list float * float, (r.1, c * r.2)) <$> Lab99.solve_problem sd perm.
Proof.
  intros Hc. unfold Lab99.solve_problem, SecondOrderTensor.
  rewrite mul_ones_scale.
  destruct (mul_ones perm (num_cells sd)) as [kxx|]; [|done]. simpl.
  destruct (Lab99.boundary_conditions sd) as [bd|]; [|done]. simpl.
  by apply flow_solve_scale.
Qed.

(** C4.  Whenever [solve_problem] succeeds for a conductivity, it succeeds
    for twice that conductivity (scalar or per cell), with the same pressure
    vector and twice the outflow: the outflow doubles, and so does its
    magnitude.  This holds for both scripts. *)
Theorem doubling_conductivity (sd : Grid) (perm : conductivity)
    (p : list float) (out : float) :
  Lab99.solve_problem sd perm = Ok (p, out) →
  Lab99.solve_problem sd (scale_conductivity 2 perm) = Ok (p, 2 * out)
  ∧ Lab10.solve_problem sd perm = Ok (p, out)
  ∧ Lab10.solve_problem sd (scale_conductivity 2 perm) = Ok (p, 2 * out)
  ∧ Qcabs (2 * out) = 2 * Qcabs out.
Proof.
  intros H.
  assert (Lab99.solve_problem sd (scale_conductivity 2 perm) = Ok (p, 2 * out)) as H2.
  { rewrite solve_problem_scale by done. by rewrite H. }
  assert (∀ perm', Lab10.solve_problem sd perm' = Lab99.solve_problem sd perm') as E.
  { intros perm'. unfold Lab10.solve_problem, Lab99.solve_problem.
    by rewrite boundary_conditions_agree. }
  rewrite !E. split_and!; try done.
  unfold Qcabs. repeat case_decide; try ring; exfalso; qc2q; lra.
Qed.

Global Instance exn_eq_dec : EqDecision exn.
Proof. solve_decision. Defined.

Global Instance res_eq_dec {A} `{EqDecision A} : EqDecision (res A).
Proof. solve_decision. Defined.

(** The pressures on the two by two grid with unit conductivity. *)
Definition pressure_2x2 : list float :=
  [Q2Qc (3 # 4); Q2Qc (3 # 4); Q2Qc (1 # 4); Q2Qc (1 # 4)].

Lemma doubling_conductivity_witness :
  ∃ p out,
    Lab99.solve_problem (CartGrid 2) (Scalar 1) = Ok (p, out)
    ∧ Lab99.solve_problem (CartGrid 2) (scale_conductivity 2 (Scalar 1)) = Ok (p, 2 * out).
Proof.
  assert (Lab99.solve_problem (CartGrid 2) (Scalar 1) = Ok (pressure_2x2, 1)) as H.
  { apply (bool_decide_eq_true_1
             (Lab99.solve_problem (CartGrid 2) (Scalar 1) = Ok (pressure_2x2, 1))).
    vm_compute. reflexivity. }
  exists pressure_2x2, 1. split; [exact H|].
  exact (proj1 (doubling_conductivity (CartGrid 2) (Scalar 1) pressure_2x2 1 H)).
Defined.

(** * Further properties of the two scripts *)

(** ** The conductivity argument of [solve_problem] *)

Lemma solve_problem_agree (sd : Grid) (perm : conductivity) :
  Lab10.solve_problem sd perm = Lab99.solve_problem sd perm.
Proof.
  unfold Lab10.solve_problem, Lab99.solve_problem.
  by rewrite boundary_conditions_agree.
Qed.

(** X1.  An array that holds one and the same value for every cell, and an
    array of a single value, are treated like that value given as a scalar:
    [perm * np.ones(num_cells)] is the same array in the three cases. *)
Theorem solve_problem_uniform_array (sd : Grid) (k : float) :
  Lab99.solve_problem sd (PerCell (replicate (num_cells sd) k))
    = Lab99.solve_problem sd (Scalar k)
  ∧ Lab99.solve_problem sd (PerCell [k]) = Lab99.solve_problem sd (Scalar k)
  ∧ Lab10.solve_problem sd (PerCell (replicate (num_cells sd) k))
    = Lab10.solve_problem sd (Scalar k)
  ∧ Lab10.solve_problem sd (PerCell [k]) = Lab10.solve_problem sd (Scalar k).
Proof.
  assert (mul_ones (PerCell (replicate (num_cells sd) k)) (num_cells sd)
          = mul_ones (Scalar k) (num_cells sd)) as E1.
  { simpl. rewrite length_replicate, decide_True by done. by rewrite fmap_replicate. }
  assert (mul_ones (PerCell [k]) (num_cells sd) = mul_ones (Scalar k) (num_cells sd)) as E2.
  { unfold mul_ones. cbn [length hd].
    destruct (decide (1%nat = num_cells sd)) as [<-|Hne]; [done|].
    destruct (decide (1%nat = 1%nat)); done. }
  rewrite !solve_problem_agree. unfold Lab99.solve_problem.
  rewrite E1, E2. done.
Qed.

(** X2.  An array whose length is neither the number of cells nor one cannot be
    broadcast against [np.ones(num_cells)] (unless there is a single cell):
    both scripts stop with the broadcasting error of line 27 / 25, before
    anything else of the grid is read. *)
Theorem solve_problem_shape_mismatch (sd : Grid) (ks : list float) :
  length ks ≠ num_cells sd → length ks ≠ 1%nat → num_cells sd ≠ 1%nat →
  Lab99.solve_problem sd (PerCell ks)
    = Raise (ValueError "operands could not be broadcast together")
  ∧ Lab10.solve_problem sd (PerCell ks)
    = Raise (ValueError "operands could not be broadcast together").
Proof.
  intros H1 H2 H3. rewrite solve_problem_agree. unfold Lab99.solve_problem.
  simpl. by rewrite !decide_False by done.
Qed.

Lemma solve_problem_shape_mismatch_witness :
  Lab99.solve_problem five_cells (PerCell [1; 1])
    = Raise (ValueError "operands could not be broadcast together")
  ∧ Lab10.solve_problem five_cells (PerCell [1; 1])
    = Raise (ValueError "operands could not be broadcast together").
Proof.
  apply (solve_problem_shape_mismatch five_cells [1; 1]); simpl; lia.
Defined.

(** ** A grid without the boundary tag *)

(** X3.  [sd.tags["domain_boundary_faces"]] on a grid whose tag dictionary
    lacks the key: once the conductivity has been broadcast, both scripts
    raise [KeyError] for that key. *)
Theorem solve_problem_missing_tag (sd : Grid) (perm : conductivity)
    (kxx : list float) :
  mul_ones perm (num_cells sd) = Ok kxx →
  tags sd !! "domain_boundary_faces" = None →
  Lab99.solve_problem sd perm = Raise (KeyError "domain_boundary_faces")
  ∧ Lab10.solve_problem sd perm = Raise (KeyError "domain_boundary_faces").
Proof.
  intros Hk Ht. rewrite solve_problem_agree. unfold Lab99.solve_problem.
  rewrite Hk. simpl. unfold Lab99.boundary_conditions, lookup_key.
  by rewrite Ht.
Qed.

Lemma solve_problem_missing_tag_witness :
  Lab99.solve_problem five_cells (Scalar 1) = Raise (KeyError "domain_boundary_faces")
  ∧ Lab10.solve_problem five_cells (Scalar 1) = Raise (KeyError "domain_boundary_faces").
Proof.
  apply (solve_problem_missing_tag five_cells (Scalar 1) (replicate 5 (1 * 1))).
  - reflexivity.
  - reflexivity.
Defined.

(** ** The Kozeny-Carman map on porosities that are not clipped *)

(** X7.  For a reference permeability from zero to [2^917] and porosities
    below one, a larger porosity gives a larger (or equal) permeability, and
    both are finite. *)
Theorem kozeny_carman_monotone (perm_ref p1 p2 : float) :
  0 ≤ perm_ref → perm_ref ≤ Qc_of_Z (2 ^ 917) →
  0 ≤ p1 → p1 ≤ p2 → is_float64 p2 → p2 < 1 →
  ∃ q1 q2, kozeny_carman perm_ref p1 = Finite q1
           ∧ kozeny_carman perm_ref p2 = Finite q2 ∧ 0 ≤ q1 ∧ q1 ≤ q2.
Proof.
  intros Href Hmax H1 H12 Hfl H2.
  pose proof (float64_below_one p2 Hfl H2) as Hb2.
  assert (0 ≤ p2) as H02 by (by trans p1).
  assert (p1 ≤ float64_pred_one) as Hb1 by (by trans p2).
  destruct (kozeny_carman_below_one perm_ref p1 Href Hmax H1 Hb1) as [E1 Hq1].
  destruct (kozeny_carman_below_one perm_ref p2 Href Hmax H02 Hb2) as [E2 Hq2].
  eexists _, _. split_and!; [exact E1|exact E2|done|].
  assert (0 < 1 - p2) as Hd2 by (qc2q; lra).
  assert (0 < 1 - p1) as Hd1 by (qc2q; lra).
  apply Qcdiv_le_cross; [by apply Qcmult_pos_pos|by apply Qcmult_pos_pos|].
  assert (p1 * p1 * p1 ≤ p2 * p2 * p2) as Hcube.
  { assert (p1 * p1 ≤ p2 * p2) as Hsq.
    { trans (p1 * p2).
      - by apply Qcmult_le_mono_nonneg_l.
      - by apply Qcmult_le_mono_nonneg_r. }
    trans (p1 * p1 * p2).
    - apply Qcmult_le_mono_nonneg_l; [by apply Qcmult_nonneg_nonneg|done].
    - by apply Qcmult_le_mono_nonneg_r. }
  assert ((1 - p2) * (1 - p2) ≤ (1 - p1) * (1 - p1)) as Hden.
  { assert (1 - p2 ≤ 1 - p1) by (qc2q; lra).
    trans ((1 - p2) * (1 - p1)).
    - apply Qcmult_le_mono_nonneg_l; [by apply Qclt_le_weak|done].
    - apply Qcmult_le_mono_nonneg_r; [by apply Qclt_le_weak|done]. }
  trans (perm_ref * (p2 * p2 * p2) * ((1 - p2) * (1 - p2))).
  - apply Qcmult_le_mono_nonneg_r; [by apply Qclt_le_weak, Qcmult_pos_pos|].
    by apply Qcmult_le_mono_nonneg_l.
  - apply Qcmult_le_mono_nonneg_l; [|done].
    apply Qcmult_nonneg_nonneg; [done|by apply cube_nonneg].
Qed.

Lemma kozeny_carman_monotone_witness :
  ∃ q1 q2, kozeny_carman 1 (Q2Qc (1 # 4)) = Finite q1
           ∧ kozeny_carman 1 (Q2Qc (1 # 2)) = Finite q2 ∧ 0 ≤ q1 ∧ q1 ≤ q2.
Proof.
  apply (kozeny_carman_monotone 1 (Q2Qc (1 # 4)) (Q2Qc (1 # 2))).
  - by vm_compute.
  - by vm_compute.
  - by vm_compute.
  - by vm_compute.
  - exists 1%Z, (-1)%Z. split_and!; [done|lia|lia|]. apply Qc_is_canon. by vm_compute.
  - by vm_compute.
Defined.

(** ** The sample points of the generator *)

Lemma lookup_concat_rows {A} (rows : list (list A)) (m i j : nat) :
  Forall (λ r, length r = m) rows → (j < m)%nat →
  concat rows !! (i * m + j)%nat = rows !! i ≫= (.!! j).
Proof.
  revert i. induction rows as [|r rows IH]; intros i Hrows Hj.
  - by rewrite lookup_nil.
  - apply Forall_cons in Hrows as [Hr Hrows]. rewrite concat_cons.
    destruct i as [|i]; simpl.
    + by rewrite lookup_app_l by lia.
    + rewrite lookup_app_r by lia.
      replace (m + i * m + j - length r)%nat with (i * m + j)%nat by lia.
      by apply IH.
Qed.

(** X10.  Lines 82 and 83: [np.array(np.meshgrid(space, space)).T.reshape(-1, 2)]
    never raises; it lists the pairs of values of [space], as many as the
    square of its length, the first coordinate varying slowest. *)
Theorem sample_points_are_the_lattice (space : list float) :
  ∃ xy,
    reshape_m1_2 (transpose3 2 (length space) (length space) (meshgrid space space))
      = Ok xy
    ∧ length xy = (length space * length space)%nat
    ∧ (∀ i j a b, space !! i = Some a → space !! j = Some b →
         xy !! (i * length space + j)%nat = Some [a; b])
    ∧ (∀ r, r ∈ xy ↔ ∃ a b, a ∈ space ∧ b ∈ space ∧ r = [a; b]).
Proof.
  exists (lattice space). split_and!.
  - apply reshape_lattice.
  - apply length_lattice.
  - intros i j a b Hi Hj. unfold lattice. rewrite <- concat_rows_bind.
    rewrite (lookup_concat_rows _ (length space)).
    + rewrite list_lookup_fmap, Hi. simpl. by rewrite list_lookup_fmap, Hj.
    + apply Forall_fmap, Forall_forall. intros x _. simpl. by rewrite length_fmap.
    + by eapply lookup_lt_Some.
  - intros r. unfold lattice. rewrite list_elem_of_bind. split.
    + intros (a & Hr & Ha). apply list_elem_of_bind in Hr as (b & Hr & Hb).
      apply list_elem_of_singleton in Hr. eauto.
    + intros (a & b & Ha & Hb & ->). exists a. split; [|done].
      apply list_elem_of_bind. exists b. split; [|done]. by apply list_elem_of_singleton.
Qed.

(** ** The array returned by the generator *)

Section generator_output.
Context {RandomState GaussianProcessRegressor : Type}.
Context (seeded : Z → RandomState).
Context (rand : RandomState → nat → list float * RandomState).
Context (gp_fit : Lab10.RBF → list (list float) → list float
                  → res GaussianProcessRegressor).
Context (gp_sample_y : GaussianProcessRegressor → list (list float) → nat
                       → res (list (list float))).

Local Abbreviation generate_perm :=
  (Lab10.generate_perm RandomState seeded rand GaussianProcessRegressor
     gp_fit gp_sample_y).

(** A successful call: what was sampled and how the result is made of it. *)
Lemma generate_perm_Ok st fresh sd params kwargs perm st' :
  generate_perm st fresh sd params kwargs = Ok (perm, st') →
  ∃ gp samples perm_ref,
    gp_sample_y gp (lattice (arange_1_sqrt (num_cells sd))) 1 = Ok samples
    ∧ as_float (kwargs_get kwargs "perm_ref" (KInt 1)) = Ok perm_ref
    ∧ perm = kozeny_carman perm_ref <$> (Qcabs <$> concat samples).
Proof.
  intros H. unfold Lab10.generate_perm in H. rewrite reshape_lattice in H.
  apply bind_Ok in H as (st0 & _ & H). apply bind_Ok in H as (xy & [= <-] & H).
  destruct (rand st0 _) as [y_train st1].
  apply bind_Ok in H as (gp & _ & H).
  apply bind_Ok in H as (samples & Hs & H).
  apply bind_Ok in H as (perm_ref & Hr & H).
  injection H as <- <-. by exists gp, samples, perm_ref.
Qed.

(** X8.  With a reference permeability that is not negative (the default is
    one), no entry of the returned array is negative or minus infinity:
    entry [i] is the Kozeny-Carman image of the absolute value of the
    [i]-th sample, which is a number at least zero, plus infinity or NaN.
    It is a number when moreover [perm_ref] is at most [2^917] and the
    porosity is a double below one.  (Plus infinity and NaN also arise away
    from porosity one, see [kozeny_carman_overflow] and
    [kozeny_carman_large_porosity].) *)
Theorem generate_perm_never_negative st fresh sd params kwargs perm st' perm_ref :
  as_float (kwargs_get kwargs "perm_ref" (KInt 1)) = Ok perm_ref →
  0 ≤ perm_ref →
  generate_perm st fresh sd params kwargs = Ok (perm, st') →
  Forall not_negative perm
  ∧ ∃ gp samples,
      gp_sample_y gp (lattice (arange_1_sqrt (num_cells sd))) 1 = Ok samples
      ∧ length perm = length (concat samples)
      ∧ ∀ i s, concat samples !! i = Some s →
          perm !! i = Some (kozeny_carman perm_ref (Qcabs s))
          ∧ (perm_ref ≤ Qc_of_Z (2 ^ 917) → is_float64 (Qcabs s) → Qcabs s < 1 →
             ∃ q, perm !! i = Some (Finite q) ∧ 0 ≤ q).
Proof.
  intros Hr Href H.
  apply generate_perm_Ok in H as (gp & samples & r & Hs & Hr' & ->).
  rewrite Hr in Hr'. injection Hr' as <-. split.
  - apply Forall_fmap, Forall_fmap, Forall_forall. intros s _. simpl.
    apply kozeny_carman_not_negative; [done|apply Qcabs_nonneg].
  - exists gp, samples. split_and!; [done|by rewrite !length_fmap|].
    intros i s Hi.
    assert ((kozeny_carman perm_ref <$> (Qcabs <$> concat samples)) !! i
            = Some (kozeny_carman perm_ref (Qcabs s))) as Hp.
    { by rewrite !list_lookup_fmap, Hi. }
    split; [done|]. intros Hmax Hfl Hlt. rewrite Hp.
    destruct (kozeny_carman_below_one perm_ref (Qcabs s)) as [-> Hq];
      [done|done|apply Qcabs_nonneg|by apply float64_below_one|].
    eauto.
Qed.

(** X9.  Provided [sample_y] returns one row of [n_samples] values per query
    point, the returned array never has fewer entries than the grid has
    cells, and at most [2 * floor (sqrt num_cells)] more. *)
Theorem generate_perm_covers_cells st fresh sd params kwargs perm st' :
  (∀ gp X ns Y, gp_sample_y gp X ns = Ok Y →
     length Y = length X ∧ Forall (λ r, length r = ns) Y) →
  generate_perm st fresh sd params kwargs = Ok (perm, st') →
  (num_cells sd ≤ length perm ≤ num_cells sd + 2 * Nat.sqrt (num_cells sd))%nat.
Proof.
  intros Hshape H. apply generate_perm_Ok in H as (gp & samples & r & Hs & _ & ->).
  apply Hshape in Hs as [Hlen Hrows].
  assert (length (concat samples) = length samples) as Hc.
  { clear Hlen. induction Hrows as [|row rows Hr _ IH]; [done|].
    rewrite concat_cons, length_app, IH, Hr. done. }
  rewrite !length_fmap, Hc, Hlen, length_lattice, length_arange_1_sqrt.
  unfold ceil_sqrt. pose proof (Nat.sqrt_specif (num_cells sd)) as [Hlo Hhi].
  case_decide; nia.
Qed.

End generator_output.

Lemma generate_perm_never_negative_witness :
  Forall not_negative (replicate 9 (Finite (Q2Qc (1 # 2)))).
Proof.
  assert (as_float (kwargs_get {[ "seed" := KInt 7 ]} "perm_ref" (KInt 1)) = Ok 1) as Hr.
  { apply (bool_decide_eq_true_1
             (as_float (kwargs_get {[ "seed" := KInt 7 ]} "perm_ref" (KInt 1)) = Ok 1)).
    vm_compute. reflexivity. }
  assert (0 ≤ 1) as Href by (by vm_compute).
  assert (Lab10.generate_perm nat Z.to_nat toy_rand (list float) toy_fit toy_sample_y
            0%nat 0%nat five_cells 1 {[ "seed" := KInt 7 ]}
          = Ok (replicate 9 (Finite (Q2Qc (1 # 2))), 16%nat)) as H.
  { apply (bool_decide_eq_true_1
             (Lab10.generate_perm nat Z.to_nat toy_rand (list float) toy_fit toy_sample_y
                0%nat 0%nat five_cells 1 {[ "seed" := KInt 7 ]}
              = Ok (replicate 9 (Finite (Q2Qc (1 # 2))), 16%nat))).
    vm_compute. reflexivity. }
  exact (proj1 (generate_perm_never_negative Z.to_nat toy_rand toy_fit toy_sample_y
                  0%nat 0%nat five_cells 1 {[ "seed" := KInt 7 ]} _ 16%nat 1 Hr Href H)).
Defined.

Lemma generate_perm_covers_cells_witness :
  (5 ≤ length (replicate 9 (Finite (Q2Qc (1 # 2)))) ≤ 5 + 2 * Nat.sqrt 5)%nat.
Proof.
  apply (generate_perm_covers_cells Z.to_nat toy_rand toy_fit toy_sample_y
           0%nat 0%nat five_cells 1 {[ "seed" := KInt 7 ]} _ 16%nat).
  - intros gp X ns Y [= <-]. rewrite length_fmap, length_seq. split; [done|].
    apply Forall_forall. intros r Hr. apply list_elem_of_fmap in Hr as (i & -> & _).
    by rewrite length_replicate.
  - apply (bool_decide_eq_true_1 (_ = _)). vm_compute. reflexivity.
Defined.




(** ** The recovered flux is balanced in every cell *)

Lemma vget_vec_add (u v : list float) (i : nat) :
  length u = length v → vget (vec_add u v) i = vget u i + vget v i.
Proof.
  intros Hlen. unfold vget, vec_add. rewrite lookup_zip_with.
  destruct (u !! i) as [a|] eqn:Hu; simpl.
  - destruct (lookup_lt_is_Some_2 v i) as [b Hb].
    { rewrite <- Hlen. by eapply lookup_lt_Some. }
    by rewrite Hb.
  - rewrite lookup_ge_None_2; [simpl; ring|].
    rewrite <- Hlen. by apply lookup_ge_None.
Qed.

Lemma vget_vec_opp (u : list float) (i : nat) : vget (vec_opp u) i = - vget u i.
Proof.
  unfold vget, vec_opp. rewrite list_lookup_fmap.
  destruct (u !! i); simpl; [done|ring].
Qed.

Lemma length_mat_vec (M : matrix) (v : list float) : length (mat_vec M v) = length M.
Proof. unfold mat_vec. apply length_fmap. Qed.

(** What the solver returns satisfies every equation of the system. *)
Lemma spsolve_sound (n : nat) (a : nat → nat → float) (b p : list float) :
  spsolve (Sparse n n (mk_matrix n n a)) b = Ok p →
  length p = n ∧ ∀ c, (c < n)%nat → sum_n n (λ j, a c j * vget p j) = vget b c.
Proof.
  unfold spsolve. cbn [sp_rows sp_cols sp_dense]. case_decide as Hd; [|done].
  destruct Hd as [_ Hb]. intros H. apply from_option_Ok in H.
  apply solve_rec_sound in H as [Hp Hsat].
  - split; [done|]. intros c Hc. rewrite Forall_forall in Hsat.
    assert (((λ j, a c j) <$> seq 0 n, vget b c) ∈ zip (mk_matrix n n a) b) as Hin.
    { apply list_elem_of_lookup. exists c. rewrite lookup_zip_with.
      unfold mk_matrix. rewrite list_lookup_fmap, lookup_seq_lt by done. simpl.
      destruct (lookup_lt_is_Some_2 b c) as [x Hx]; [lia|].
      unfold vget. by rewrite Hx. }
    specialize (Hsat _ Hin). unfold sat in Hsat. simpl in Hsat.
    by rewrite dot_fmap_seq in Hsat.
  - apply Forall_forall. intros [row x] Hin.
    apply elem_of_zip_l in Hin. simpl. unfold mk_matrix in Hin.
    apply list_elem_of_fmap in Hin as (i & -> & _).
    by rewrite length_fmap, length_seq.
  - rewrite length_zip_with, length_mk_matrix. lia.
Qed.

(** X5.  Lines 50 to 56.  When [solve_problem] returns, the flux
    [q = flux @ p + bound_flux @ bc_val] that it recovers is balanced: in
    every cell the sum of [q] over the faces of the cell, each counted with
    the orientation of the face with respect to the cell, is zero. *)
Theorem recovered_flux_is_balanced (sd : Grid) (perm : conductivity)
    (p : list float) (out : float) :
  Lab99.solve_problem sd perm = Ok (p, out) →
  ∃ kxx bd fp bg q,
    mul_ones perm (num_cells sd) = Ok kxx
    ∧ Lab99.boundary_conditions sd = Ok bd
    ∧ sp_matvec (tpfa_flux sd kxx) p = Ok fp
    ∧ sp_matvec (tpfa_bound_flux sd kxx (bd_bc bd)) (bd_values bd) = Ok bg
    ∧ np_add fp bg = Ok q
    ∧ length p = num_cells sd
    ∧ length q = num_faces sd
    ∧ ∀ c, (c < num_cells sd)%nat →
        sum_n (num_faces sd) (λ f, sgn_float (cf_sign sd f c) * vget q f) = 0.
Proof.
  intros H. unfold Lab99.solve_problem, SecondOrderTensor in H.
  apply bind_Ok in H as (kxx & Hk & H). apply bind_Ok in H as (bd & Hbd & H).
  rewrite flow_solve_eq in H. cbv zeta in H.
  apply bind_Ok in H as (A & HA & H). apply bind_Ok in H as (g & Hg & H).
  apply bind_Ok in H as (r & Hr & H). apply bind_Ok in H as (cell_p & Hp & H).
  apply bind_Ok in H as (fp & Hfp & H). apply bind_Ok in H as (bg & Hbg & H).
  apply bind_Ok in H as (q & Hq & H). apply bind_Ok in H as (idx & _ & H).
  apply bind_Ok in H as (qs & _ & H). injection H as -> _.
  assert (bg = g) as -> by congruence.
  set (nc := num_cells sd) in *. set (nf := num_faces sd) in *.
  set (d := λ c f, sgn_float (cf_sign sd f c)).
  set (e := λ f c, face_trans sd kxx f * sgn_float (cf_sign sd f c)).
  (* the assembled matrix *)
  unfold sp_matmul, tpfa_div, tpfa_flux, sp_make in HA.
  cbn [sp_rows sp_cols sp_dense] in HA. rewrite decide_True in HA by done.
  injection HA as <-. fold nc nf in Hp. rewrite mat_mul_mk in Hp.
  (* the boundary term *)
  unfold sp_matvec in Hg. case_decide as Hgl; [|done]. injection Hg as <-.
  unfold tpfa_bound_flux, sp_make in Hgl. cbn [sp_cols] in Hgl.
  cbn [sp_dense tpfa_bound_flux sp_make] in *.
  set (g := mat_vec _ (bd_values bd)) in *.
  assert (length g = nf) as Hglen.
  { unfold g. by rewrite length_mat_vec, length_mk_matrix. }
  unfold sp_matvec, tpfa_div, sp_make in Hr. cbn [sp_cols sp_dense] in Hr.
  rewrite decide_True in Hr by done. injection Hr as <-.
  rewrite mat_vec_mk in Hp by done.
  apply spsolve_sound in Hp as [Hpl Hsys].
  (* the flux *)
  unfold sp_matvec, tpfa_flux, sp_make in Hfp. cbn [sp_cols sp_dense] in Hfp.
  rewrite decide_True in Hfp by done. injection Hfp as <-.
  rewrite mat_vec_mk in Hq by done. fold e in Hq.
  unfold np_add in Hq. case_decide as Hql; [|done]. injection Hq as <-.
  set (fp := (λ f, sum_n nc (λ j, e f j * vget p j)) <$> seq 0 nf) in *.
  exists kxx, bd, fp, g, (vec_add fp g). split_and!; [done|done| | | |done| |].
  - unfold sp_matvec, tpfa_flux, sp_make. cbn [sp_cols sp_dense].
    rewrite decide_True by done. by rewrite mat_vec_mk.
  - unfold sp_matvec, tpfa_bound_flux, sp_make. cbn [sp_cols sp_dense].
    by rewrite decide_True by exact Hgl.
  - unfold np_add. by rewrite decide_True by exact Hql.
  - unfold vec_add, fp. rewrite length_zip_with, length_fmap, length_seq. lia.
  - intros c Hc. specialize (Hsys c Hc). unfold fp.
    rewrite vget_vec_opp, vget_fmap_seq in Hsys by done.
    rewrite (sum_n_ext nf _ (λ f, d c f * sum_n nc (λ j, e f j * vget p j)
                                   + d c f * vget g f)).
    + rewrite sum_n_plus.
      rewrite (sum_n_ext nf _ (λ f, sum_n nc (λ j, d c f * e f j * vget p j))).
      * rewrite sum_n_exchange.
        rewrite (sum_n_ext nc _ (λ j, sum_n nf (λ l, d c l * e l j) * vget p j)).
        -- assert (sum_n nc (λ j, sum_n nf (λ l, d c l * e l j) * vget p j)
                   = - sum_n nf (λ f, d c f * vget g f)) as E by exact Hsys.
           rewrite E. ring.
        -- intros j _. rewrite (Qcmult_comm (sum_n nf _)), <- sum_n_scale.
           apply sum_n_ext. intros l _. ring.
      * intros f _. rewrite <- sum_n_scale. apply sum_n_ext. intros j _. ring.
    + intros f Hf. rewrite vget_vec_add by done.
      rewrite vget_fmap_seq by done. fold (d c f). ring.
Qed.

Lemma recovered_flux_is_balanced_witness :
  ∃ q, length q = 12%nat
       ∧ ∀ c, (c < 4)%nat →
           sum_n 12 (λ f, sgn_float (cf_sign (CartGrid 2) f c) * vget q f) = 0.
Proof.
  assert (Lab99.solve_problem (CartGrid 2) (Scalar 1) = Ok (pressure_2x2, 1)) as H.
  { apply (bool_decide_eq_true_1
             (Lab99.solve_problem (CartGrid 2) (Scalar 1) = Ok (pressure_2x2, 1))).
    vm_compute. reflexivity. }
  destruct (recovered_flux_is_balanced (CartGrid 2) (Scalar 1) pressure_2x2 1 H)
    as (kxx & bd & fp & bg & q & _ & _ & _ & _ & _ & _ & Hq & Hbal).
  exists q. split; [exact Hq|exact Hbal].
Defined.

(** ** What a call of the generator leaves in the process-wide generator *)

Section generator_state.
Context {RandomState GaussianProcessRegressor : Type}.
Context (seeded : Z → RandomState).
Context (rand : RandomState → nat → list float * RandomState).
Context (gp_fit : Lab10.RBF → list (list float) → list float
                  → res GaussianProcessRegressor).
Context (gp_sample_y : GaussianProcessRegressor → list (list float) → nat
                       → res (list (list float))).

(** X12.  A call with an integer seed that returns has drawn from [np.random]
    exactly once: one value per lattice point, from the freshly seeded
    state.  The state it leaves is the state after these draws, whatever
    the state was before the call. *)
Theorem generate_perm_leaves_state st fresh sd params kwargs (s : Z) perm st' :
  kwargs !! "seed" = Some (KInt s) →
  Lab10.generate_perm RandomState seeded rand GaussianProcessRegressor
    gp_fit gp_sample_y st fresh sd params kwargs = Ok (perm, st') →
  (0 ≤ s < 2 ^ 32)%Z
  ∧ st' = (rand (seeded s)
             (ceil_sqrt (num_cells sd) * ceil_sqrt (num_cells sd))).2.
Proof.
  intros Hs H. unfold Lab10.generate_perm, kwargs_get in H.
  rewrite Hs, reshape_lattice in H. simpl in H.
  case_decide as Hrange; [|done]. simpl in H.
  rewrite length_lattice, length_arange_1_sqrt in H.
  destruct (rand (seeded s) _) eqn:Hrand.
  apply bind_Ok in H as (gp & _ & H). apply bind_Ok in H as (samples & _ & H).
  apply bind_Ok in H as (perm_ref & _ & H). injection H as _ <-.
  done.
Qed.

End generator_state.

Lemma generate_perm_leaves_state_witness :
  (0 ≤ 7 < 2 ^ 32)%Z ∧ 16%nat = (toy_rand (Z.to_nat 7) (ceil_sqrt 5 * ceil_sqrt 5)).2.
Proof.
  apply (generate_perm_leaves_state Z.to_nat toy_rand toy_fit toy_sample_y
           0%nat 0%nat five_cells 1 {[ "seed" := KInt 7 ]} 7
           (replicate 9 (Finite (Q2Qc (1 # 2))))).
  - reflexivity.
  - apply (bool_decide_eq_true_1 (_ = _)). vm_compute. reflexivity.
Defined.

(** ** Which faces the reported outflow sums over *)

Lemma take_idx_vget (q : list float) (idx : list nat) (qs : list float) :
  take_idx q idx = Ok qs → qs = vget q <$> idx.
Proof.
  unfold take_idx. revert qs. induction idx as [|i idx IH]; intros qs; simpl.
  - by intros [= <-].
  - intros H. apply bind_Ok in H as (x & Hx & H).
    apply bind_Ok in H as (xs & Hxs & H). injection H as <-.
    apply getitem_Ok in Hx. f_equal; [unfold vget; by rewrite Hx|by apply IH].
Qed.

Lemma select_close_faces (faces : list nat) (vals fc1 : list float) (top : float) :
  length vals = length faces →
  (∀ j f, faces !! j = Some f → vals !! j = fc1 !! f) →
  (∀ f, f ∈ faces → (f < length fc1)%nat) →
  fst <$> filter (λ xb, xb.2 = true) (zip faces (np_isclose vals top))
  = filter (λ f, isclose (vget fc1 f) top = true) faces.
Proof.
  revert vals. induction faces as [|f faces IH]; intros [|v vals] Hlen Hval Hlt;
    try done.
  assert (fc1 !! f = Some v) as Hf.
  { symmetry. apply (Hval 0%nat f). done. }
  assert (vget fc1 f = v) as Hv by (unfold vget; by rewrite Hf).
  assert (fst <$> filter (λ xb, xb.2 = true) (zip faces (np_isclose vals top))
          = filter (λ f, isclose (vget fc1 f) top = true) faces) as IH'.
  { apply IH; [simpl in Hlen; lia| |].
    - intros j f' Hj. apply (Hval (S j) f' Hj).
    - intros f' Hf'. apply Hlt. by right. }
  unfold np_isclose in *. rewrite fmap_cons. simpl zip.
  rewrite !filter_cons. simpl. rewrite Hv.
  destruct (decide (isclose v top = true)); [rewrite fmap_cons; simpl|];
    by rewrite IH'.
Qed.

(** X6.  Line 58 (and lines 30 to 34, 56).  The second value returned is the sum
    of the recovered flux over the faces that carry the boundary tag and
    whose centre has a second coordinate close, in the sense of
    [np.isclose], to the largest second coordinate of the nodes; each such
    face is counted once. *)
Theorem outflow_sums_tagged_faces_near_top (sd : Grid) (perm : conductivity)
    (tag : list bool) (p : list float) (out : float) :
  geometry_ready sd →
  tags sd !! "domain_boundary_faces" = Some tag →
  Lab99.solve_problem sd perm = Ok (p, out) →
  ∃ kxx bd fp bg q fc1 ys top,
    mul_ones perm (num_cells sd) = Ok kxx
    ∧ Lab99.boundary_conditions sd = Ok bd
    ∧ sp_matvec (tpfa_flux sd kxx) p = Ok fp
    ∧ sp_matvec (tpfa_bound_flux sd kxx (bd_bc bd)) (bd_values bd) = Ok bg
    ∧ np_add fp bg = Ok q
    ∧ face_centers sd !! 1%nat = Some fc1
    ∧ nodes sd !! 1%nat = Some ys
    ∧ amax ys = Ok top
    ∧ out = np_sum (vget q <$>
                      filter (λ f, isclose (vget fc1 f) top = true) (nonzero tag))
    ∧ NoDup (filter (λ f, isclose (vget fc1 f) top = true) (nonzero tag)).
Proof.
  intros Hwf Ht H.
  destruct (boundary_conditions_Ok sd tag Hwf Ht)
    as (bd' & fc1 & bfc1 & ys & top & Hbd' & Hfc1 & Hfl & Hys & Htop & Hf & _ & _
        & Hout & Hbl & Hbn & _ & _).
  unfold Lab99.solve_problem, SecondOrderTensor in H.
  apply bind_Ok in H as (kxx & Hk & H). apply bind_Ok in H as (bd & Hbd & H).
  assert (bd' = bd) as -> by congruence.
  rewrite flow_solve_eq in H. cbv zeta in H.
  apply bind_Ok in H as (A & _ & H). apply bind_Ok in H as (g & Hg & H).
  apply bind_Ok in H as (r & _ & H). apply bind_Ok in H as (cell_p & _ & H).
  apply bind_Ok in H as (fp & Hfp & H). apply bind_Ok in H as (bg & Hbg & H).
  apply bind_Ok in H as (q & Hq & H). apply bind_Ok in H as (idx & Hidx & H).
  apply bind_Ok in H as (qs & Hqs & H). injection H as -> <-.
  exists kxx, bd, fp, bg, q, fc1, ys, top.
  split_and!; [done..| |by apply NoDup_filter, NoDup_nonzero].
  apply take_idx_vget in Hqs as ->. do 2 f_equal.
  unfold take_mask in Hidx. case_decide; [|done]. injection Hidx as <-.
  rewrite Hf, Hout. apply select_close_faces; [done|done|].
  intros f Hin. rewrite Hfl. destruct Hwf as ((tag' & Ht' & <-) & _).
  assert (tag' = tag) as -> by congruence. by apply nonzero_lt.
Qed.

Lemma outflow_sums_tagged_faces_near_top_witness :
  ∃ q fc1 top,
    1 = np_sum (vget q <$>
                  filter (λ f, isclose (vget fc1 f) top = true)
                    (nonzero (cart_boundary 2 <$> seq 0 12))).
Proof.
  assert (Lab99.solve_problem (CartGrid 2) (Scalar 1) = Ok (pressure_2x2, 1)) as H.
  { apply (bool_decide_eq_true_1
             (Lab99.solve_problem (CartGrid 2) (Scalar 1) = Ok (pressure_2x2, 1))).
    vm_compute. reflexivity. }
  destruct (outflow_sums_tagged_faces_near_top (CartGrid 2) (Scalar 1)
              (cart_boundary 2 <$> seq 0 12) pressure_2x2 1
              geometry_ready_CartGrid_2 eq_refl H)
    as (kxx & bd & fp & bg & q & fc1 & ys & top & _ & _ & _ & _ & _ & _ & _ & _ & Hout & _).
  exists q, fc1, top. exact Hout.
Defined.
